(** * The tic-tac-toe game-engine SDK ([games/tic_tac_toe/sdk.py])

    A shallow embedding of the SDK's three parts:

    - [GameEngineStats], the per-player statistics table and its rendering;
    - [RedisClient] and [GameEngineClient], the publisher of session events
      and the session clock;
    - [timeout_run], the bounded call into player code through a worker
      process and a shared mailbox.

    Python dictionaries used as maps are [gmap]s; dictionaries and lists that
    are built to be serialised are [pyval]s, with the keys of a dictionary in
    insertion order.  Code that can raise returns an [outcome]. *)

From Stdlib Require Import Ascii QArith Qround Qabs Lqa.
From stdpp Require Import base strings list gmap numbers.

Set Warnings "-register-all,-clear-no-such-hyp".
Local Open Scope Z_scope.
Local Open Scope string_scope.

(** ** Python values, exceptions and outcomes *)

(** The values that travel through the SDK.  A [float] is modelled by the
    rational it denotes. *)
Inductive pyval : Type :=
| VNone
| VBool (b : bool)
| VInt (z : Z)
| VFloat (q : Q)
| VStr (s : string)
| VList (l : list pyval)
| VDict (kvs : list (string * pyval)).

(** An exception instance: the name of its class and its arguments. *)
Record pyexc : Type := PyExc { exc_type : string; exc_args : list pyval }.

Definition KeyError (key : string) : pyexc := PyExc "KeyError" [VStr key].
Definition TypeError (msg : string) : pyexc := PyExc "TypeError" [VStr msg].
(** [raise TimeoutError] instantiates the class without arguments. *)
Definition TimeoutError : pyexc := PyExc "TimeoutError" [].

(** What a call does: it returns a value or raises an exception. *)
Inductive outcome (A : Type) : Type :=
| Return (a : A)
| Raise (e : pyexc).
Arguments Return {A} a.
Arguments Raise {A} e.

(** Key lookup in a dictionary literal kept in insertion order. *)
Fixpoint dict_get (kvs : list (string * pyval)) (key : string) : option pyval :=
  match kvs with
  | [] => None
  | (k, v) :: rest => if decide (k = key) then Some v else dict_get rest key
  end.

Definition dict_keys (kvs : list (string * pyval)) : list string := kvs.*1.

(** ** Teams and players *)

(** [GameEnginePlayer]: the [script] attribute (a [ScriptWrapper] around the
    path of the player's code) is kept as the path. *)
Record GameEnginePlayer : Type := {
  player_name : string;
  player_id : string;
  player_script : string
}.

Record GameEngineTeam : Type := {
  team_name : string;
  team_id : string;
  team_players : list GameEnginePlayer
}.

(** ** The wrapper of a player's script *)

Module ScriptWrapper.

Record t : Type := { path : string }.

(** [c in chars] *)
Fixpoint in_chars (c : ascii) (chars : string) : bool :=
  match chars with
  | EmptyString => false
  | String d rest => Ascii.eqb c d || in_chars c rest
  end.

(** [s.split(sep)] for a separator of one character: the pieces between
    the separators, at least one. *)
Fixpoint py_split (sep : ascii) (s : string) : list string :=
  match s with
  | EmptyString => [EmptyString]
  | String c rest =>
      let parts := py_split sep rest in
      if Ascii.eqb c sep then EmptyString :: parts
      else match parts with
           | piece :: others => String c piece :: others
           | [] => [String c EmptyString]
           end
  end.

(** [s.rstrip(chars)]: [s] without its longest tail made of characters of
    [chars]. *)
Fixpoint py_rstrip (chars : string) (s : string) : string :=
  match s with
  | EmptyString => EmptyString
  | String c rest =>
      match py_rstrip chars rest with
      | EmptyString => if in_chars c chars then EmptyString else String c EmptyString
      | kept => String c kept
      end
  end.

(** The name given to the loaded module in [__load_module]:
    [self.__path.split('/')[-1].rstrip(".py")]. *)
Definition module_name (self : t) : string :=
  py_rstrip ".py" (List.last (py_split "/"%char (path self)) EmptyString).

End ScriptWrapper.

(** ** The statistics table *)

Module GameEngineStats.

(** The three private attributes [__teams], [__players], [__params]. *)
Record t : Type := {
  teams : list GameEngineTeam;
  players : gmap string (gmap string Z);
  params : list string
}.

(** A method runs on the table, may change it, and returns or raises; the
    table as the method left it is part of the answer in both cases. *)
Definition M (A : Type) : Type := t → outcome A * t.

Definition ret {A} (a : A) : M A := λ s, (Return a, s).
Definition throw {A} (e : pyexc) : M A := λ s, (Raise e, s).
Definition bind {A B} (m : M A) (k : A → M B) : M B :=
  λ s, match m s with
       | (Return a, s') => k a s'
       | (Raise e, s') => (Raise e, s')
       end.

Declare Scope stats_scope.
Delimit Scope stats_scope with stats.
Notation "'let*' x ':=' m 'in' k" := (bind m (λ x, k))
  (at level 10, x pattern, m at level 100, k at level 200) : stats_scope.

(** [{param: 0 for param in params}] *)
Definition zero_row (names : list string) : gmap string Z :=
  foldl (λ row param, <[param := 0]> row) ∅ names.

(** The two nested loops of [set_params]. *)
Definition seed_players (names : list string) (ts : list GameEngineTeam)
    (tbl : gmap string (gmap string Z)) : gmap string (gmap string Z) :=
  foldl (λ tbl team,
           foldl (λ tbl player, <[player_id player := zero_row names]> tbl)
                 tbl (team_players team))
        tbl ts.

Definition set_params (names : list string) (s : t) : t :=
  {| teams := teams s;
     players := seed_players names (teams s) (players s);
     params := names |}.

(** [__init__(teams, params)] *)
Definition init (ts : list GameEngineTeam) (names : list string) : t :=
  set_params names {| teams := ts; players := ∅; params := [] |}.

(** [self.__players[player.id]] *)
Definition player_row (player : GameEnginePlayer) : M (gmap string Z) :=
  λ s, match players s !! player_id player with
       | Some row => (Return row, s)
       | None => (Raise (KeyError (player_id player)), s)
       end.

(** [self.__players[player.id][param]] *)
Definition cell (player : GameEnginePlayer) (param : string) : M Z :=
  (let* row := player_row player in
   match row !! param with
   | Some v => ret v
   | None => throw (KeyError param)
   end)%stats.

(** [self.__players[player.id][param] = value] *)
Definition store (player : GameEnginePlayer) (param : string) (value : Z)
    (row : gmap string Z) : M unit :=
  λ s, (Return (),
        {| teams := teams s;
           players := <[player_id player := <[param := value]> row]> (players s);
           params := params s |}).

Definition get_params : M (list string) := λ s, (Return (params s), s).
Definition get_teams : M (list GameEngineTeam) := λ s, (Return (teams s), s).

Definition set_value (player : GameEnginePlayer) (param : string) (value : Z) : M unit :=
  (let* names := get_params in
   if bool_decide (param ∈ names)
   then let* row := player_row player in store player param value row
   else ret ())%stats.

(** A method that falls off its end returns Python's [None]: the answer of
    [get_value] is [Some v] for a number and [None] for [None]. *)
Definition get_value (player : GameEnginePlayer) (param : string) : M (option Z) :=
  (let* names := get_params in
   if bool_decide (param ∈ names)
   then let* v := cell player param in ret (Some v)
   else ret None)%stats.

Definition NoneType_plus_int : pyexc :=
  TypeError "unsupported operand type(s) for +: 'NoneType' and 'int'".

(** [cur + value] for a number [value]: [None] has no [__add__] and a
    number's [__radd__] refuses it. *)
Definition py_add (cur : option Z) (value : Z) : M Z :=
  match cur with
  | Some a => ret (a + value)
  | None => throw NoneType_plus_int
  end.

(** The argument [self.get_value(player, param) + value] is evaluated
    before [set_value] is entered. *)
Definition add_value (player : GameEnginePlayer) (param : string) (value : Z) : M unit :=
  (let* cur := get_value player param in
   let* total := py_add cur value in
   set_value player param total)%stats.

(** A [for] loop over a list, threading the variables it updates. *)
Fixpoint for_each {A B} (l : list A) (body : A → B → M B) (acc : B) : M B :=
  match l with
  | [] => ret acc
  | x :: l' => (let* acc' := body x acc in for_each l' body acc')%stats
  end.

Definition enumerate {A} (l : list A) : list (nat * A) := imap pair l.

(** [acc[i] += self.__players[player.id][param]] *)
Definition accumulate (i : nat) (player : GameEnginePlayer) (param : string)
    (acc : list Z) : M (list Z) :=
  (let* v := cell player param in
   match acc !! i with
   | Some x => ret (<[i := x + v]> acc)
   | None => throw (PyExc "IndexError" [VStr "list index out of range"])
   end)%stats.

Definition table_row (kind : string) (cols : list pyval) : pyval :=
  VDict [("type", VStr kind); ("cols", VList cols)].

(** The body of the loop over teams in [get_table]. *)
Definition team_rows (names : list string) (team : GameEngineTeam)
    (rows : list pyval) : M (list pyval) :=
  (let* rows :=
     (if bool_decide (1 < length (team_players team))%nat
      then
        let* sums :=
          for_each (enumerate names)
            (λ '(i, param) sums,
               for_each (team_players team)
                 (λ player sums, accumulate i player param sums) sums)
            (replicate (length names) 0) in
        ret (rows ++ [table_row "subheader"
                        (VStr (team_name team) :: (VInt <$> sums))])%list
      else ret rows) in
   for_each (team_players team)
     (λ player rows,
        let* row :=
          for_each (enumerate names)
            (λ '(i, param) row, accumulate i player param row)
            (replicate (length names) 0) in
        ret (rows ++ [table_row "row"
                        (VStr (player_name player) :: (VInt <$> row))])%list)
     rows)%stats.

Definition get_table : M (list pyval) :=
  (let* names := get_params in
   let* ts := get_teams in
   for_each ts (team_rows names)
     [table_row "header" (VStr " " :: (VStr <$> names))])%stats.

End GameEngineStats.

(** ** The world of a session: wall clock and broker *)

(** The text that [json.dumps] writes for a value, kept as the document it
    encodes. *)
Inductive json_text : Type := json_dumps (v : pyval).

(** [wall_clock w n] is what the [n]-th call of [time.time()] reads;
    [broker w] lists the messages published so far, oldest first, each with
    its channel. *)
Record World : Type := {
  wall_clock : nat → Q;
  clock_reads : nat;
  broker : list (string * json_text)
}.

(** [time.time()] *)
Definition time_time (w : World) : Q * World :=
  (wall_clock w (clock_reads w),
   {| wall_clock := wall_clock w;
      clock_reads := S (clock_reads w);
      broker := broker w |}).

(** [redis.publish(channel, message)] *)
Definition publish (channel : string) (message : json_text) (w : World) : World :=
  {| wall_clock := wall_clock w;
     clock_reads := clock_reads w;
     broker := (broker w ++ [(channel, message)])%list |}.

(** The integer nearest to [x], a tie going to the even one. *)
Definition round_half_even (x : Q) : Z :=
  let lo := Qfloor x in
  match (2 * (x - inject_Z lo) ?= 1)%Q with
  | Lt => lo
  | Gt => lo + 1
  | Eq => if Z.even lo then lo else lo + 1
  end.

(** [round(x, ndigits)] for [ndigits >= 0], on the rational [x] denotes. *)
Definition py_round (x : Q) (ndigits : nat) : Q :=
  let scale := Z.to_pos (10 ^ Z.of_nat ndigits) in
  Qred (round_half_even (x * inject_Z (Z.pos scale)) # scale).

Module RedisClient.

Record t : Type := { session_id : string }.

Definition init (sid : string) : t := {| session_id := sid |}.

Definition pack_message (self : t) (type : string) (data : pyval)
    (elapsed_time : Q) : json_text :=
  json_dumps (VDict [("session_id", VStr (session_id self));
                     ("data", data);
                     ("type", VStr type);
                     ("elapsed", VFloat (py_round elapsed_time 2))]).

(** [data] is [None] when the caller leaves it out: the default [{}]. *)
Definition send_message (self : t) (type : string) (elapsed_time : Q)
    (data : option pyval) (w : World) : World :=
  publish "game_engine_notifications"
          (pack_message self type (default (VDict []) data) elapsed_time) w.

End RedisClient.

Module GameEngineClient.

Record t : Type := {
  session_id : string;
  teams : list GameEngineTeam;
  redis_client : RedisClient.t;
  start_time : Q
}.

(** [__init__], from the parsed session description. *)
Definition init (sid : string) (ts : list GameEngineTeam) : t :=
  {| session_id := sid;
     teams := ts;
     redis_client := RedisClient.init sid;
     start_time := 0 |}.

(** [__elapsed] *)
Definition elapsed (self : t) (w : World) : Q * World :=
  let '(now, w) := time_time w in
  ((now - start_time self)%Q, w).

(** [description] is [None] when the caller leaves it out: the default [{}]. *)
Definition send_event (self : t) (event : string) (description : option pyval)
    (w : World) : World :=
  let '(e, w) := elapsed self w in
  RedisClient.send_message (redis_client self) "event" e
    (Some (VDict [("type", VStr event);
                  ("description", default (VDict []) description)])) w.

Definition set_winner (self : t) (team : GameEngineTeam) (w : World) : World :=
  send_event self "winner" (Some (VDict [("team_id", VStr (team_id team))])) w.

Definition start (self : t) (w : World) : t * World :=
  let '(now, w) := time_time w in
  let self := {| session_id := session_id self;
                 teams := teams self;
                 redis_client := redis_client self;
                 start_time := now |} in
  (self, send_event self "started" None w).

Definition end_ (self : t) (w : World) : World :=
  send_event self "ended" None w.

Definition send_frame (self : t) (frame : pyval) (w : World) : World :=
  let '(e, w) := elapsed self w in
  RedisClient.send_message (redis_client self) "frame" e (Some frame) w.

(** The clock is read before [stats.get_table()] is evaluated. *)
Definition send_stats (self : t) (stats : GameEngineStats.t) (w : World)
    : outcome unit * World :=
  let '(e, w) := elapsed self w in
  match GameEngineStats.get_table stats with
  | (Return rows, _) =>
      (Return (),
       RedisClient.send_message (redis_client self) "stats" e (Some (VList rows)) w)
  | (Raise ex, _) => (Raise ex, w)
  end.

End GameEngineClient.

(** ** The bounded call into player code *)

(** An exception instance as a condition tests it: the exception, and the
    truth value of the object, which is true unless the class of the
    exception defines [__bool__] or [__len__] to answer otherwise. *)
Record exc_object : Type := {
  exc_value : pyexc;
  exc_truth : bool
}.

(** An instance of a class that defines neither, as the built-in exceptions
    are. *)
Definition plain (e : pyexc) : exc_object :=
  {| exc_value := e; exc_truth := true |}.

(** The dictionary shared by the caller and the worker, with its three keys.
    [exception] is [None] for Python's [None]. *)
Record return_dict : Type := {
  result : pyval;
  exception : option exc_object;
  finished : bool
}.

(** What the [try] block of the worker does, the call of [function_name] on
    [module] and the storing of its result: it stores a result, it raises an
    [Exception], or it leaves the wrapper in no such way (it raises outside
    [Exception], ends the process, or never comes back). *)
Inductive call : Type :=
| Returns (v : pyval)
| Raises (e : exc_object)
| Escapes.

(** One assignment to a key of the shared dictionary. *)
Inductive write : Type :=
| SetResult (v : pyval)
| SetException (e : exc_object)
| SetFinished.

Definition apply_write (d : return_dict) (wr : write) : return_dict :=
  match wr with
  | SetResult v => {| result := v; exception := exception d; finished := finished d |}
  | SetException e => {| result := result d; exception := Some e; finished := finished d |}
  | SetFinished => {| result := result d; exception := exception d; finished := true |}
  end.

(** [__proccess_wrapper]: the assignments the worker makes, in order. *)
Definition proccess_wrapper (target : call) : list write :=
  match target with
  | Returns v => [SetResult v; SetFinished]
  | Raises e => [SetException e; SetFinished]
  | Escapes => []
  end.

(** Truth value of [return_dict['exception']]: that of the exception
    instance; [None] is false. *)
Definition truthy (e : option exc_object) : bool :=
  match e with
  | Some e => exc_truth e
  | None => false
  end.

(** [raise x]: [x] itself when it is an exception instance. *)
Definition py_raise (x : option exc_object) : outcome pyval :=
  match x with
  | Some e => Raise (exc_value e)
  | None => Raise (TypeError "exceptions must derive from BaseException")
  end.

(** The three tests after the [with] block, on the copied dictionary. *)
Definition decide_outcome (d : return_dict) : outcome pyval :=
  if negb (finished d) then Raise TimeoutError
  else if truthy (exception d) then py_raise (exception d)
       else Return (result d).

(** [timeout_run]: the worker starts on the fresh dictionary, is joined for
    at most [timeout] seconds and is terminated; [landed] is the number of
    its assignments made by then, which the timeout and the scheduler
    decide. *)
Definition timeout_run (target : call) (landed : nat) : outcome pyval :=
  let fresh := {| result := VNone; exception := None; finished := false |} in
  let d := foldl apply_write fresh (take landed (proccess_wrapper target)) in
  decide_outcome d.

(** ** Vocabulary of the statements *)

Import GameEngineStats.

(** The number stored for a player under a parameter, if any. *)
Definition stored (s : GameEngineStats.t) (player : GameEnginePlayer)
    (param : string) : option Z :=
  players s !! player_id player ≫= (.!! param).

(** Every player of every team has every declared parameter. *)
Definition complete (s : GameEngineStats.t) : Prop :=
  ∀ team player param,
    team ∈ teams s → player ∈ team_players team → param ∈ params s →
    is_Some (stored s player param).

(** The identifiers that [set_params] seeds. *)
Definition player_ids (ts : list GameEngineTeam) : list string :=
  ts ≫= λ team, player_id <$> team_players team.

(** Rows are kept for players of the teams only. *)
Definition seeded (s : GameEngineStats.t) : Prop :=
  ∀ pid, is_Some (players s !! pid) → pid ∈ player_ids (teams s).

(** The tables that the class can be in: built by [__init__] and changed by
    its methods. *)
Inductive reachable : GameEngineStats.t → Prop :=
| reachable_init ts names :
    reachable (init ts names)
| reachable_set_params s names :
    reachable s → reachable (set_params names s)
| reachable_set_value s player param value :
    reachable s → reachable (set_value player param value s).2
| reachable_add_value s player param value :
    reachable s → reachable (add_value player param value s).2.

(** A call of [set_value] or [add_value]. *)
Inductive update : Type :=
| SetValue (player : GameEnginePlayer) (param : string) (value : Z)
| AddValue (player : GameEnginePlayer) (param : string) (value : Z).

Definition run_update (u : update) : M unit :=
  match u with
  | SetValue player param value => set_value player param value
  | AddValue player param value => add_value player param value
  end.

(** The table after a sequence of such calls, whatever each one answered. *)
Definition run_updates (us : list update) (s : GameEngineStats.t) : GameEngineStats.t :=
  foldl (λ s u, (run_update u s).2) s us.

(** *** The rendered table in the words of the specification *)

Module Rendered.

Definition value_of (s : GameEngineStats.t) (player : GameEnginePlayer)
    (param : string) : Z :=
  default 0 (stored s player param).

(** The sum of a parameter over the players of a team. *)
Definition team_sum (s : GameEngineStats.t) (team : GameEngineTeam)
    (param : string) : Z :=
  foldr Z.add 0 ((λ player, value_of s player param) <$> team_players team).

(** Header row: a first column [corner], then the parameter names. *)
Definition header (corner : string) (s : GameEngineStats.t) : pyval :=
  table_row "header" (VStr corner :: (VStr <$> params s)).

(** Subheader row: the team name, then the per-parameter sums. *)
Definition subheader (s : GameEngineStats.t) (team : GameEngineTeam) : pyval :=
  table_row "subheader"
    (VStr (team_name team) :: ((λ param, VInt (team_sum s team param)) <$> params s)).

(** Player row: the player name, then the player's values. *)
Definition player_line (s : GameEngineStats.t) (player : GameEnginePlayer) : pyval :=
  table_row "row"
    (VStr (player_name player) :: ((λ param, VInt (value_of s player param)) <$> params s)).

(** A team: its subheader if it has more than one player, immediately
    followed by its players in order. *)
Definition team_block (s : GameEngineStats.t) (team : GameEngineTeam) : list pyval :=
  ((if bool_decide (1 < length (team_players team))%nat then [subheader s team] else [])
     ++ (player_line s <$> team_players team))%list.

(** Header first, then the teams in order. *)
Definition table (corner : string) (s : GameEngineStats.t) : list pyval :=
  header corner s :: concat (team_block s <$> teams s).

End Rendered.

(** The copied dictionary that [timeout_run] decides on. *)
Definition mailbox (target : call) (landed : nat) : return_dict :=
  foldl apply_write {| result := VNone; exception := None; finished := false |}
        (take landed (proccess_wrapper target)).

(** After [__init__] or [set_params names]: the player has a row, and it
    maps exactly [names], each to 0. *)
Definition declared (names : list string) (s : GameEngineStats.t)
    (player : GameEnginePlayer) : Prop :=
  params s = names
  ∧ is_Some (players s !! player_id player)
  ∧ ∀ param, stored s player param
             = if bool_decide (param ∈ names) then Some 0 else None.

(** The messages that a step from [w] to [w'] added to the broker. *)
Definition published (w w' : World) : list (string * json_text) :=
  drop (length (broker w)) (broker w').

(** A field of the JSON object that a message carries. *)
Definition envelope_field (key : string) (msg : string * json_text) : option pyval :=
  match msg.2 with
  | json_dumps (VDict kvs) => dict_get kvs key
  | json_dumps _ => None
  end.

(** *** A session of two teams *)

Module Demo.

Definition p1 : GameEnginePlayer :=
  {| player_name := "Ann"; player_id := "p1"; player_script := "ann.py" |}.
Definition p2 : GameEnginePlayer :=
  {| player_name := "Bob"; player_id := "p2"; player_script := "bob.py" |}.
Definition p3 : GameEnginePlayer :=
  {| player_name := "Cyd"; player_id := "p3"; player_script := "cyd.py" |}.
(** A player of no team. *)
Definition stranger : GameEnginePlayer :=
  {| player_name := "Dee"; player_id := "p9"; player_script := "dee.py" |}.

Definition team1 : GameEngineTeam :=
  {| team_name := "Reds"; team_id := "t1"; team_players := [p1; p2] |}.
Definition team2 : GameEngineTeam :=
  {| team_name := "Blues"; team_id := "t2"; team_players := [p3] |}.

Definition fresh : GameEngineStats.t := init [team1; team2] ["a"].

(** [a] is 1 and 2 in the first team and 5 in the second. *)
Definition scored : GameEngineStats.t :=
  (set_value p3 "a" 5 (set_value p2 "a" 2 (set_value p1 "a" 1 fresh).2).2).2.

Definition client : GameEngineClient.t :=
  GameEngineClient.init "s1" [team1; team2].

(** A world whose clock reads [t0] twice and [t0 + 2.5] from then on. *)
Definition world (t0 : Q) : World :=
  {| wall_clock := λ n, match n with
                        | O | 1%nat => t0
                        | _ => (t0 + (5 # 2))%Q
                        end;
     clock_reads := 0;
     broker := [] |}.

End Demo.

(** *** Vocabulary of the further properties *)

(** The last character of a string. *)
Fixpoint last_char (s : string) : option ascii :=
  match s with
  | EmptyString => None
  | String c EmptyString => Some c
  | String _ rest => last_char rest
  end.

(** The string ends in a character of [chars]. *)
Definition ends_in (chars : string) (s : string) : bool :=
  match last_char s with
  | Some c => ScriptWrapper.in_chars c chars
  | None => false
  end.

(** The table has a row for exactly the players of its teams, and every row
    has exactly the declared parameters. *)
Definition well_shaped (s : GameEngineStats.t) : Prop :=
  (∀ pid, is_Some (players s !! pid) ↔ pid ∈ player_ids (teams s))
  ∧ (∀ pid row param, players s !! pid = Some row →
                      (is_Some (row !! param) ↔ param ∈ params s)).

(** The columns of a rendered row. *)
Definition row_cols (r : pyval) : option (list pyval) :=
  match r with
  | VDict kvs => match dict_get kvs "cols" with
                 | Some (VList cols) => Some cols
                 | _ => None
                 end
  | _ => None
  end.

(** Calls of [send_event], one after the other. *)
Definition send_events (self : GameEngineClient.t)
    (events : list (string * option pyval)) (w : World) : World :=
  foldl (λ w ev, GameEngineClient.send_event self ev.1 ev.2 w) w events.

(** The envelope of an event published when the clock reads [now]. *)
Definition event_envelope (self : GameEngineClient.t) (now : Q)
    (ev : string * option pyval) : string * json_text :=
  ("game_engine_notifications",
   RedisClient.pack_message (GameEngineClient.redis_client self) "event"
     (VDict [("type", VStr ev.1); ("description", default (VDict []) ev.2)])
     (now - GameEngineClient.start_time self)%Q).

Module Edge.

(** A table whose team list grew after it was built: the list is shared
    with the caller, and the new team's player was never seeded. *)
Definition torn : GameEngineStats.t :=
  {| teams := [Demo.team1; Demo.team2];
     players := players (init [Demo.team1] ["a"]);
     params := ["a"] |}.

(** An exception of a class that defines [__bool__] to return [False]. *)
Definition quiet : exc_object :=
  {| exc_value := PyExc "Quiet" [VStr "illegal move"]; exc_truth := false |}.

End Edge.

(** Exposes the messages that a publishing step appended. *)
Ltac new_messages :=
  unfold published;
  cbn [GameEngineClient.start GameEngineClient.send_event
       GameEngineClient.send_frame GameEngineClient.elapsed
       time_time RedisClient.send_message publish broker fst snd];
  rewrite drop_app_length.

(** ** Facts about the statistics table *)

Section StatsFacts.

Implicit Types (s : GameEngineStats.t) (player : GameEnginePlayer)
  (team : GameEngineTeam) (param : string) (names : list string).

Lemma zero_row_acc names : ∀ (acc : gmap string Z) param,
  foldl (λ row p, <[p := 0]> row) acc names !! param
  = if bool_decide (param ∈ names) then Some 0 else acc !! param.
Proof.
  induction names as [|a names IH]; intros acc param; cbn [foldl].
  - by rewrite bool_decide_eq_false_2 by set_solver.
  - rewrite IH. destruct (decide (param = a)) as [->|Hne].
    + rewrite (bool_decide_eq_true_2 (a ∈ a :: names)) by set_solver.
      case_bool_decide; [done | by rewrite lookup_insert_eq].
    + rewrite lookup_insert_ne by done.
      do 2 case_bool_decide; set_solver.
Qed.

Lemma zero_row_lookup names param :
  zero_row names !! param = if bool_decide (param ∈ names) then Some 0 else None.
Proof. unfold zero_row. by rewrite zero_row_acc, lookup_empty. Qed.

Lemma seed_team_lookup names (pls : list GameEnginePlayer) :
  ∀ (tbl : gmap string (gmap string Z)) pid,
    foldl (λ tbl player, <[player_id player := zero_row names]> tbl) tbl pls !! pid
    = if bool_decide (pid ∈ player_id <$> pls) then Some (zero_row names) else tbl !! pid.
Proof.
  induction pls as [|p pls IH]; intros tbl pid; cbn [foldl]; rewrite ?fmap_cons.
  - by rewrite bool_decide_eq_false_2 by set_solver.
  - rewrite IH. destruct (decide (pid = player_id p)) as [->|Hne].
    + rewrite (bool_decide_eq_true_2 (_ ∈ _ :: _)) by set_solver.
      case_bool_decide; [done | by rewrite lookup_insert_eq].
    + rewrite lookup_insert_ne by done.
      do 2 case_bool_decide; set_solver.
Qed.

Lemma player_ids_cons team (ts : list GameEngineTeam) :
  player_ids (team :: ts) = ((player_id <$> team_players team) ++ player_ids ts)%list.
Proof. done. Qed.

Lemma seed_players_lookup names (ts : list GameEngineTeam) :
  ∀ (tbl : gmap string (gmap string Z)) pid,
    seed_players names ts tbl !! pid
    = if bool_decide (pid ∈ player_ids ts) then Some (zero_row names) else tbl !! pid.
Proof.
  unfold seed_players.
  induction ts as [|team ts IH]; intros tbl pid; cbn [foldl].
  - by rewrite bool_decide_eq_false_2 by (unfold player_ids; set_solver).
  - rewrite IH, seed_team_lookup, player_ids_cons.
    repeat case_bool_decide; set_solver.
Qed.

Lemma player_ids_elem (ts : list GameEngineTeam) team player :
  team ∈ ts → player ∈ team_players team → player_id player ∈ player_ids ts.
Proof.
  intros Ht Hp. unfold player_ids. apply list_elem_of_bind.
  exists team. split; [|done]. by apply list_elem_of_fmap_2.
Qed.

(** *** The methods, case by case *)

Lemma set_value_cases s player param value :
  ((param ∉ params s) ∧ set_value player param value s = (Return (), s))
  ∨ (param ∈ params s ∧ players s !! player_id player = None
     ∧ set_value player param value s = (Raise (KeyError (player_id player)), s))
  ∨ (param ∈ params s
     ∧ ∃ row, players s !! player_id player = Some row
              ∧ set_value player param value s = store player param value row s).
Proof.
  unfold set_value, bind, get_params, player_row, ret.
  case_bool_decide as Hin; [|by left].
  right. destruct (players s !! player_id player) as [row|] eqn:Hrow.
  - right. split; [done|]. by exists row.
  - by left.
Qed.

Lemma get_value_undeclared s player param :
  param ∉ params s → get_value player param s = (Return None, s).
Proof.
  intros Hnot. unfold get_value, bind, get_params, ret.
  by rewrite bool_decide_eq_false_2.
Qed.

Lemma get_value_declared s player param :
  param ∈ params s →
  get_value player param s
  = match players s !! player_id player with
    | None => (Raise (KeyError (player_id player)), s)
    | Some row => match row !! param with
                  | None => (Raise (KeyError param), s)
                  | Some v => (Return (Some v), s)
                  end
    end.
Proof.
  intros Hin. unfold get_value, bind, get_params, cell, bind, player_row, ret, throw.
  rewrite bool_decide_eq_true_2 by done.
  destruct (players s !! player_id player) as [row|]; [|done].
  by destruct (row !! param).
Qed.

Lemma add_value_cases s player param value :
  (∃ e, add_value player param value s = (Raise e, s))
  ∨ (∃ x, stored s player param = Some x
          ∧ add_value player param value s = set_value player param (x + value) s).
Proof.
  destruct (decide (param ∈ params s)) as [Hin|Hnot].
  - pose proof (get_value_declared s player param Hin) as Hget.
    unfold stored, add_value, bind.
    destruct (players s !! player_id player) as [row|]; simpl.
    + destruct (row !! param) as [x|]; rewrite Hget.
      * right. by exists x.
      * left. by eexists.
    + rewrite Hget. left. by eexists.
  - left. unfold add_value, bind.
    rewrite get_value_undeclared by done. by eexists.
Qed.

(** *** The two invariants *)

Lemma store_complete s player param value row :
  complete s → players s !! player_id player = Some row →
  complete (store player param value row s).2.
Proof.
  intros Hc Hrow team q a Ht Hq Ha. simpl in *.
  specialize (Hc team q a Ht Hq Ha). unfold stored in *. simpl.
  destruct (decide (player_id player = player_id q)) as [Heq|Hne].
  - rewrite Heq, lookup_insert_eq. simpl.
    rewrite <- Heq, Hrow in Hc. simpl in Hc.
    destruct (decide (param = a)) as [->|Hpa].
    + rewrite lookup_insert_eq. eauto.
    + by rewrite lookup_insert_ne.
  - by rewrite lookup_insert_ne.
Qed.

Lemma store_seeded s player param value row :
  seeded s → players s !! player_id player = Some row →
  seeded (store player param value row s).2.
Proof.
  intros Hs Hrow pid. simpl.
  destruct (decide (player_id player = pid)) as [<-|Hne].
  - intros _. apply Hs. eauto.
  - rewrite lookup_insert_ne by done. apply Hs.
Qed.

Lemma set_value_keeps (P : GameEngineStats.t → Prop) s player param value :
  (∀ row, players s !! player_id player = Some row →
          P (store player param value row s).2) →
  P s → P (set_value player param value s).2.
Proof.
  intros Hstore HP.
  destruct (set_value_cases s player param value)
    as [[_ ->]|[(_ & _ & ->)|(_ & row & Hrow & ->)]]; auto.
Qed.

Lemma add_value_keeps (P : GameEngineStats.t → Prop) s player param value :
  (∀ row v, players s !! player_id player = Some row →
            P (store player param v row s).2) →
  P s → P (add_value player param value s).2.
Proof.
  intros Hstore HP.
  destruct (add_value_cases s player param value) as [[e ->]|(x & _ & ->)]; [done|].
  apply set_value_keeps; auto.
Qed.

Lemma set_params_complete names s : complete (set_params names s).
Proof.
  intros team player param Ht Hp Ha. unfold stored. simpl in *.
  rewrite seed_players_lookup, bool_decide_eq_true_2
    by eauto using player_ids_elem.
  simpl. rewrite zero_row_lookup, bool_decide_eq_true_2 by done. eauto.
Qed.

Lemma set_params_seeded names s : seeded s → seeded (set_params names s).
Proof.
  intros Hs pid. simpl. rewrite seed_players_lookup.
  case_bool_decide; [done | apply Hs].
Qed.

Lemma init_seeded (ts : list GameEngineTeam) names : seeded (init ts names).
Proof.
  apply set_params_seeded. intros pid. simpl.
  rewrite lookup_empty. by intros [? ?].
Qed.

Lemma reachable_complete s : reachable s → complete s.
Proof.
  induction 1 as [ts names|s names _ _|s player param value _ IH|s player param value _ IH].
  - apply set_params_complete.
  - apply set_params_complete.
  - apply set_value_keeps; eauto using store_complete.
  - apply add_value_keeps; eauto using store_complete.
Qed.

Lemma reachable_seeded s : reachable s → seeded s.
Proof.
  induction 1 as [ts names|s names _ IH|s player param value _ IH|s player param value _ IH].
  - apply init_seeded.
  - by apply set_params_seeded.
  - apply set_value_keeps; eauto using store_seeded.
  - apply add_value_keeps; eauto using store_seeded.
Qed.

Lemma run_updates_complete (us : list update) : ∀ s,
  complete s → complete (run_updates us s).
Proof.
  unfold run_updates.
  induction us as [|u us IH]; intros s Hc; cbn [foldl]; [done|].
  apply IH. destruct u as [player param value|player param value]; simpl.
  - apply set_value_keeps; eauto using store_complete.
  - apply add_value_keeps; eauto using store_complete.
Qed.

(** *** Rendering *)

Lemma cell_stored s player param v :
  stored s player param = Some v → cell player param s = (Return v, s).
Proof.
  unfold stored, cell, bind, player_row.
  destruct (players s !! player_id player) as [row|]; simpl; [|done].
  by intros ->.
Qed.

Lemma accumulate_stored s i player param (acc : list Z) x v :
  stored s player param = Some v → acc !! i = Some x →
  accumulate i player param acc s = (Return (<[i := x + v]> acc), s).
Proof.
  intros Hv Hx. unfold accumulate, bind.
  by rewrite (cell_stored _ _ _ _ Hv), Hx.
Qed.

(** The loop over a team's players adds their values to one slot. *)
Lemma sum_loop s i param (pls : list GameEnginePlayer) :
  ∀ (acc : list Z) x,
    (∀ player, player ∈ pls → is_Some (stored s player param)) →
    acc !! i = Some x →
    for_each pls (λ player sums, accumulate i player param sums) acc s
    = (Return (<[i := x + foldr Z.add 0
                          ((λ player, Rendered.value_of s player param) <$> pls)]> acc),
       s).
Proof.
  induction pls as [|p pls IH]; intros acc x Hall Hx; cbn [for_each].
  - unfold ret. rewrite fmap_nil. cbn [foldr].
    by rewrite Z.add_0_r, list_insert_id.
  - destruct (Hall p) as [v Hv]; [set_solver|].
    unfold bind. rewrite (accumulate_stored _ _ _ _ _ x v Hv Hx).
    rewrite (IH _ (x + v)).
    + rewrite list_insert_insert_eq, fmap_cons. cbn [foldr].
      unfold Rendered.value_of at 2. rewrite Hv. simpl.
      by rewrite Z.add_assoc.
    + intros q Hq. apply Hall. set_solver.
    + apply list_lookup_insert_eq. by eapply lookup_lt_Some.
Qed.

(** A loop over [enumerate] that fills slot after slot of a list of zeros. *)
Lemma index_loop s (step : nat → string → list Z → M (list Z)) (f : string → Z) :
  ∀ (l : list string) k (filled : list Z),
    length filled = k →
    (∀ i param (acc : list Z), param ∈ l → acc !! i = Some 0 →
       step i param acc s = (Return (<[i := f param]> acc), s)) →
    for_each (imap (λ j, pair (k + j)%nat) l)
             (λ '(i, param) acc, step i param acc)
             (filled ++ replicate (length l) 0)%list s
    = (Return (filled ++ (f <$> l))%list, s).
Proof.
  induction l as [|a l IH]; intros k filled Hk Hstep.
  - done.
  - rewrite imap_cons. cbn [for_each length replicate]. unfold bind.
    rewrite Hstep; [|set_solver|].
    + rewrite Nat.add_0_r, <- Hk, <- (Nat.add_0_r (length filled)), insert_app_r.
      cbn [insert list_insert].
      rewrite (imap_ext _ (λ j, pair (S (length filled) + j)%nat)).
      * rewrite (cons_middle (f a)), app_assoc.
        rewrite (IH (S (length filled)) (filled ++ [f a])%list).
        -- by rewrite <- app_assoc, fmap_cons.
        -- rewrite length_app. simpl. lia.
        -- intros i param acc Hin. apply Hstep. set_solver.
      * intros j x _. simpl. f_equal. lia.
    + rewrite Nat.add_0_r, <- Hk. by rewrite list_lookup_middle.
Qed.

Lemma enumerate_loop s (step : nat → string → list Z → M (list Z))
    (f : string → Z) (l : list string) :
  (∀ i param (acc : list Z), param ∈ l → acc !! i = Some 0 →
     step i param acc s = (Return (<[i := f param]> acc), s)) →
  for_each (enumerate l) (λ '(i, param) acc, step i param acc)
           (replicate (length l) 0) s
  = (Return (f <$> l), s).
Proof.
  intros Hstep. by apply (index_loop s step f l 0%nat []).
Qed.

Lemma row_loop s player :
  (∀ param, param ∈ params s → is_Some (stored s player param)) →
  for_each (enumerate (params s))
           (λ '(i, param) row, accumulate i player param row)
           (replicate (length (params s)) 0) s
  = (Return ((λ param, Rendered.value_of s player param) <$> params s), s).
Proof.
  intros Hall.
  apply (enumerate_loop s (λ i param, accumulate i player param)).
  intros i param acc Hin Hacc. destruct (Hall param Hin) as [v Hv].
  rewrite (accumulate_stored _ _ _ _ _ 0 v Hv Hacc).
  unfold Rendered.value_of. by rewrite Hv, Z.add_0_l.
Qed.

Lemma sums_loop s team :
  (∀ player param, player ∈ team_players team → param ∈ params s →
                   is_Some (stored s player param)) →
  for_each (enumerate (params s))
           (λ '(i, param) sums,
              for_each (team_players team)
                (λ player sums, accumulate i player param sums) sums)
           (replicate (length (params s)) 0) s
  = (Return ((λ param, Rendered.team_sum s team param) <$> params s), s).
Proof.
  intros Hall.
  apply (enumerate_loop s
           (λ i param sums,
              for_each (team_players team)
                (λ player sums, accumulate i player param sums) sums)).
  intros i param acc Hin Hacc.
  rewrite (sum_loop s i param (team_players team) acc 0); [|by auto|done].
  unfold Rendered.team_sum. by rewrite Z.add_0_l.
Qed.

Lemma lines_loop s (pls : list GameEnginePlayer) :
  ∀ rows : list pyval,
    (∀ player param, player ∈ pls → param ∈ params s →
                     is_Some (stored s player param)) →
    for_each pls
      (λ player rows,
         let* row :=
           for_each (enumerate (params s))
             (λ '(i, param) row, accumulate i player param row)
             (replicate (length (params s)) 0) in
         ret (rows ++ [table_row "row"
                         (VStr (player_name player) :: (VInt <$> row))])%list)%stats
      rows s
    = (Return (rows ++ (Rendered.player_line s <$> pls))%list, s).
Proof.
  induction pls as [|p pls IH]; intros rows Hall; cbn [for_each].
  - unfold ret. by rewrite fmap_nil, app_nil_r.
  - unfold bind at 1. unfold bind at 1.
    rewrite row_loop by (intros; apply Hall; set_solver).
    unfold ret at 1. rewrite IH by (intros; apply Hall; set_solver).
    rewrite fmap_cons, <- app_assoc. unfold Rendered.player_line at 2.
    by rewrite <- list_fmap_compose.
Qed.

Lemma team_rows_complete s team (rows : list pyval) :
  (∀ player param, player ∈ team_players team → param ∈ params s →
                   is_Some (stored s player param)) →
  team_rows (params s) team rows s
  = (Return (rows ++ Rendered.team_block s team)%list, s).
Proof.
  intros Hall. unfold team_rows, Rendered.team_block. unfold bind at 1.
  case_bool_decide.
  - unfold bind at 1. rewrite sums_loop by done. unfold ret at 1.
    rewrite lines_loop by done. rewrite <- app_assoc.
    unfold Rendered.subheader. by rewrite <- list_fmap_compose.
  - unfold ret at 1. by rewrite lines_loop.
Qed.

Lemma teams_loop s (ts : list GameEngineTeam) :
  ∀ rows : list pyval,
    (∀ team player param, team ∈ ts → player ∈ team_players team →
                          param ∈ params s → is_Some (stored s player param)) →
    for_each ts (team_rows (params s)) rows s
    = (Return (rows ++ concat (Rendered.team_block s <$> ts))%list, s).
Proof.
  induction ts as [|team ts IH]; intros rows Hall; cbn [for_each].
  - unfold ret. by rewrite fmap_nil, app_nil_r.
  - unfold bind.
    rewrite team_rows_complete by (intros; apply (Hall team); [set_solver|done..]).
    rewrite IH by (intros t' **; apply (Hall t'); [set_solver|done..]).
    by rewrite fmap_cons, <- app_assoc.
Qed.

(** On a table that has every declared parameter of every player,
    [get_table] returns the table of the specification, its corner cell
    being one space, and leaves the table as it is. *)
Lemma get_table_complete s :
  complete s → get_table s = (Return (Rendered.table " " s), s).
Proof.
  intros Hc. unfold get_table, bind, get_params, get_teams.
  rewrite teams_loop by (intros; by eapply Hc). done.
Qed.

End StatsFacts.

(** ** The statistics table: the claims *)

Section StatsClaims.

Implicit Types (s : GameEngineStats.t) (player : GameEnginePlayer)
  (team : GameEngineTeam) (param : string) (names : list string).

Lemma set_value_declared s player param value row :
  param ∈ params s → players s !! player_id player = Some row →
  set_value player param value s = store player param value row s.
Proof.
  intros Hin Hrow.
  destruct (set_value_cases s player param value)
    as [[Hnot _]|[(_ & Hnone & _)|(_ & row' & Hrow' & ->)]]; [done|congruence|].
  congruence.
Qed.

Lemma add_value_declared s player param value row x :
  param ∈ params s → players s !! player_id player = Some row →
  row !! param = Some x →
  add_value player param value s = store player param (x + value) row s.
Proof.
  intros Hin Hrow Hx. unfold add_value, bind.
  rewrite get_value_declared, Hrow, Hx by done. simpl.
  by apply set_value_declared.
Qed.

Lemma set_params_declared names s team player :
  team ∈ teams s → player ∈ team_players team →
  players (set_params names s) !! player_id player = Some (zero_row names).
Proof.
  intros Ht Hp. simpl.
  by rewrite seed_players_lookup, bool_decide_eq_true_2
    by eauto using player_ids_elem.
Qed.

Lemma unseeded_row s player :
  seeded s → player_id player ∉ player_ids (teams s) →
  players s !! player_id player = None.
Proof.
  intros Hs Hnot. destruct (players s !! player_id player) as [row|] eqn:Hrow; [|done].
  destruct Hnot. apply Hs. eauto.
Qed.

(** C7. For every table, every player and every parameter name that is not
    declared: [set_value] returns without raising and leaves the whole table
    as it was, and [get_value] returns [None], the absent signal, neither a
    number nor an exception. *)
Theorem undeclared_param_silent s player param value :
  param ∉ params s →
  set_value player param value s = (Return (), s)
  ∧ get_value player param s = (Return None, s).
Proof.
  intros Hnot. split.
  - destruct (set_value_cases s player param value)
      as [[_ ->]|[(Hin & _)|(Hin & _)]]; done.
  - by apply get_value_undeclared.
Qed.

Lemma undeclared_param_silent_witness :
  ("zz" ∉ params Demo.scored)
  ∧ set_value Demo.p1 "zz" 7 Demo.scored = (Return (), Demo.scored)
  ∧ get_value Demo.p1 "zz" Demo.scored = (Return None, Demo.scored).
Proof.
  assert (Hnot : "zz" ∉ params Demo.scored).
  { apply (bool_decide_unpack _). vm_compute. exact I. }
  split; [exact Hnot|].
  exact (undeclared_param_silent Demo.scored Demo.p1 "zz" 7 Hnot).
Defined.

(** C4. For every table, every player and every delta, [add_value] with a
    parameter name that is not declared fails loudly: it raises the
    [TypeError] of adding a number to [None], it does not return, and the
    table is left as it was; no sum is computed or written. *)
Theorem add_value_undeclared_raises s player param value :
  param ∉ params s →
  add_value player param value s = (Raise NoneType_plus_int, s)
  ∧ (add_value player param value s).1 ≠ Return ().
Proof.
  intros Hnot.
  assert (add_value player param value s = (Raise NoneType_plus_int, s)) as ->.
  { unfold add_value, bind. by rewrite get_value_undeclared. }
  by split.
Qed.

Lemma add_value_undeclared_raises_witness :
  ("zz" ∉ params Demo.scored)
  ∧ add_value Demo.p1 "zz" 3 Demo.scored = (Raise NoneType_plus_int, Demo.scored)
  ∧ (add_value Demo.p1 "zz" 3 Demo.scored).1 ≠ Return ().
Proof.
  assert (Hnot : "zz" ∉ params Demo.scored).
  { apply (bool_decide_unpack _). vm_compute. exact I. }
  split; [exact Hnot|].
  exact (add_value_undeclared_raises Demo.scored Demo.p1 "zz" 3 Hnot).
Defined.

(** C6. For every player of a team of the table: after
    [set_params(["a","b"])] and [set_value(p, "a", 5)], [get_value(p, "a")]
    returns 5, [get_value(p, "b")] returns 0 and [get_value(p, "c")] returns
    [None]; after [add_value(p, "a", 3)], [get_value(p, "a")] returns 8.
    Neither [set_value] nor [add_value] raises. *)
Theorem declare_set_get_add s team player :
  team ∈ teams s → player ∈ team_players team →
  let s1 := set_params ["a"; "b"] s in
  let s2 := (set_value player "a" 5 s1).2 in
  let s3 := (add_value player "a" 3 s2).2 in
  (set_value player "a" 5 s1).1 = Return ()
  ∧ get_value player "a" s2 = (Return (Some 5), s2)
  ∧ get_value player "b" s2 = (Return (Some 0), s2)
  ∧ get_value player "c" s2 = (Return None, s2)
  ∧ (add_value player "a" 3 s2).1 = Return ()
  ∧ get_value player "a" s3 = (Return (Some 8), s3).
Proof.
  intros Ht Hp s1 s2 s3.
  assert (Ha : "a" ∈ ["a"; "b"]) by set_solver.
  assert (Hb : "b" ∈ ["a"; "b"]) by set_solver.
  assert (Hc : "c" ∉ ["a"; "b"]) by set_solver.
  pose proof (set_params_declared ["a"; "b"] s team player Ht Hp) as Hrow.
  fold s1 in Hrow.
  assert (Hset : set_value player "a" 5 s1
                 = store player "a" 5 (zero_row ["a"; "b"]) s1)
    by (by apply set_value_declared).
  assert (Hrow2 : players s2 !! player_id player
                  = Some (<["a" := 5]> (zero_row ["a"; "b"]))).
  { unfold s2. rewrite Hset. simpl. by rewrite lookup_insert_eq. }
  assert (Hadd : add_value player "a" 3 s2
                 = store player "a" (5 + 3)
                         (<["a" := 5]> (zero_row ["a"; "b"])) s2).
  { apply add_value_declared; [by unfold s2; rewrite Hset|done|].
    by rewrite lookup_insert_eq. }
  repeat split.
  - by rewrite Hset.
  - rewrite get_value_declared, Hrow2 by (by unfold s2; rewrite Hset).
    by rewrite lookup_insert_eq.
  - rewrite get_value_declared, Hrow2 by (by unfold s2; rewrite Hset).
    rewrite lookup_insert_ne by done.
    by rewrite zero_row_lookup, bool_decide_eq_true_2.
  - apply get_value_undeclared. by unfold s2; rewrite Hset.
  - by rewrite Hadd.
  - assert (Hp3 : params s3 = ["a"; "b"])
      by (unfold s3; rewrite Hadd; simpl; unfold s2; by rewrite Hset).
    rewrite get_value_declared by (by rewrite Hp3).
    unfold s3. rewrite Hadd. simpl.
    by rewrite !lookup_insert_eq.
Qed.

Lemma declare_set_get_add_witness :
  Demo.team1 ∈ teams Demo.scored ∧ Demo.p2 ∈ team_players Demo.team1
  ∧ let s1 := set_params ["a"; "b"] Demo.scored in
    let s2 := (set_value Demo.p2 "a" 5 s1).2 in
    let s3 := (add_value Demo.p2 "a" 3 s2).2 in
    (set_value Demo.p2 "a" 5 s1).1 = Return ()
    ∧ get_value Demo.p2 "a" s2 = (Return (Some 5), s2)
    ∧ get_value Demo.p2 "b" s2 = (Return (Some 0), s2)
    ∧ get_value Demo.p2 "c" s2 = (Return None, s2)
    ∧ (add_value Demo.p2 "a" 3 s2).1 = Return ()
    ∧ get_value Demo.p2 "a" s3 = (Return (Some 8), s3).
Proof.
  assert (Ht : Demo.team1 ∈ teams Demo.scored) by (vm_compute; left).
  assert (Hp : Demo.p2 ∈ team_players Demo.team1) by (vm_compute; right; left).
  split; [exact Ht|]. split; [exact Hp|].
  exact (declare_set_get_add Demo.scored Demo.team1 Demo.p2 Ht Hp).
Defined.

(** C8. For every table and every list of names, every player of every team
    of the table has, after [__init__] with these names and after
    [set_params] with them, a row that maps exactly these names, each to 0,
    whatever was stored before; and after any later calls of [set_value] and
    [add_value] every player of every team still has every declared
    parameter. *)
Theorem declared_params_invariant s names (us : list update) team player :
  team ∈ teams s → player ∈ team_players team →
  declared names (init (teams s) names) player
  ∧ declared names (set_params names s) player
  ∧ complete (run_updates us (init (teams s) names))
  ∧ complete (run_updates us (set_params names s)).
Proof.
  intros Ht Hp.
  assert (Hdecl : ∀ s', teams s' = teams s →
                        declared names (set_params names s') player).
  { intros s' Hteams. rewrite <- Hteams in Ht.
    pose proof (set_params_declared names s' team player Ht Hp) as Hrow.
    split; [done|]. split; [by rewrite Hrow|].
    intros param. unfold stored. rewrite Hrow. simpl. apply zero_row_lookup. }
  split; [by apply Hdecl|]. split; [by apply Hdecl|].
  split; apply run_updates_complete, set_params_complete.
Qed.

Lemma declared_params_invariant_witness :
  Demo.team1 ∈ teams Demo.scored ∧ Demo.p1 ∈ team_players Demo.team1
  ∧ declared ["a"; "b"] (init (teams Demo.scored) ["a"; "b"]) Demo.p1
  ∧ declared ["a"; "b"] (set_params ["a"; "b"] Demo.scored) Demo.p1
  ∧ complete (run_updates [SetValue Demo.p1 "a" 5; AddValue Demo.p3 "b" 3]
                          (init (teams Demo.scored) ["a"; "b"]))
  ∧ complete (run_updates [SetValue Demo.p1 "a" 5; AddValue Demo.p3 "b" 3]
                          (set_params ["a"; "b"] Demo.scored)).
Proof.
  assert (Ht : Demo.team1 ∈ teams Demo.scored) by (vm_compute; left).
  assert (Hp : Demo.p1 ∈ team_players Demo.team1) by (vm_compute; left).
  split; [exact Ht|]. split; [exact Hp|].
  exact (declared_params_invariant Demo.scored ["a"; "b"]
           [SetValue Demo.p1 "a" 5; AddValue Demo.p3 "b" 3]
           Demo.team1 Demo.p1 Ht Hp).
Defined.

(** C10. For every table the class can be in, every player whose id is the
    id of no player of the table's teams, and every declared parameter name:
    [set_value], [get_value] and [add_value] raise [KeyError] on the
    player's id and leave the table as it was. *)
Theorem unknown_player_raises_KeyError s player param value :
  reachable s → player_id player ∉ player_ids (teams s) → param ∈ params s →
  set_value player param value s = (Raise (KeyError (player_id player)), s)
  ∧ get_value player param s = (Raise (KeyError (player_id player)), s)
  ∧ add_value player param value s = (Raise (KeyError (player_id player)), s).
Proof.
  intros Hreach Hnot Hin.
  pose proof (unseeded_row s player (reachable_seeded s Hreach) Hnot) as Hnone.
  assert (Hget : get_value player param s
                 = (Raise (KeyError (player_id player)), s))
    by (by rewrite get_value_declared, Hnone).
  split; [|split; [done|]].
  - destruct (set_value_cases s player param value)
      as [[Hno _]|[(_ & _ & ->)|(_ & row & Hrow & _)]]; [done|done|congruence].
  - unfold add_value, bind. by rewrite Hget.
Qed.

Lemma unknown_player_raises_KeyError_witness :
  reachable Demo.scored
  ∧ (player_id Demo.stranger ∉ player_ids (teams Demo.scored))
  ∧ "a" ∈ params Demo.scored
  ∧ set_value Demo.stranger "a" 4 Demo.scored = (Raise (KeyError "p9"), Demo.scored)
  ∧ get_value Demo.stranger "a" Demo.scored = (Raise (KeyError "p9"), Demo.scored)
  ∧ add_value Demo.stranger "a" 4 Demo.scored = (Raise (KeyError "p9"), Demo.scored).
Proof.
  assert (Hreach : reachable Demo.scored) by (repeat constructor).
  assert (Hnot : player_id Demo.stranger ∉ player_ids (teams Demo.scored)).
  { apply (bool_decide_unpack _). vm_compute. exact I. }
  assert (Hin : "a" ∈ params Demo.scored) by (vm_compute; left).
  split; [exact Hreach|]. split; [exact Hnot|]. split; [exact Hin|].
  exact (unknown_player_raises_KeyError Demo.scored Demo.stranger "a" 4 Hreach Hnot Hin).
Defined.

(** C2, as the code has it. For every table the class can be in, [get_table]
    returns, in this order: one header row whose columns are the
    one-space string followed by the declared parameter names in
    declaration order; then for each team in session order a subheader row,
    present exactly when the team has more than one player, whose columns
    are the team name followed by the per-parameter sums over the team's
    players, immediately followed by one row per player in session order
    whose columns are the player name followed by the player's values.  The
    table itself is left as it was. *)
Theorem get_table_renders s :
  reachable s → get_table s = (Return (Rendered.table " " s), s).
Proof. intros Hreach. by apply get_table_complete, reachable_complete. Qed.

Lemma get_table_renders_witness :
  reachable Demo.scored
  ∧ get_table Demo.scored = (Return (Rendered.table " " Demo.scored), Demo.scored).
Proof.
  assert (Hreach : reachable Demo.scored) by (repeat constructor).
  split; [exact Hreach|].
  exact (get_table_renders Demo.scored Hreach).
Defined.

(** C2, as the claim has it, fails on the session of two teams: the first
    column of the header row is one space, not the empty string. *)
Lemma get_table_header_corner_not_empty :
  (get_table Demo.scored).1
  = Return [table_row "header" [VStr " "; VStr "a"];
            table_row "subheader" [VStr "Reds"; VInt 3];
            table_row "row" [VStr "Ann"; VInt 1];
            table_row "row" [VStr "Bob"; VInt 2];
            table_row "row" [VStr "Cyd"; VInt 5]]
  ∧ (get_table Demo.scored).1 ≠ Return (Rendered.table "" Demo.scored).
Proof.
  split; [by vm_compute|].
  vm_compute. intros Heq. discriminate Heq.
Qed.

End StatsClaims.

(** ** The publisher and the session clock *)

Section ClientFacts.

Import GameEngineClient.

Implicit Types (self : GameEngineClient.t) (w : World).

Lemma published_app w w' (msgs : list (string * json_text)) :
  broker w' = (broker w ++ msgs)%list → published w w' = msgs.
Proof. intros Heq. unfold published. by rewrite Heq, drop_app_length. Qed.

Lemma send_message_broker (rc : RedisClient.t) (type : string) (e : Q)
    (data : option pyval) w :
  broker (RedisClient.send_message rc type e data w)
  = (broker w ++ [("game_engine_notifications",
                   RedisClient.pack_message rc type (default (VDict []) data) e)])%list.
Proof. done. Qed.

Lemma send_event_broker self (event : string) (description : option pyval) w :
  broker (send_event self event description w)
  = (broker w
     ++ [("game_engine_notifications",
          RedisClient.pack_message (redis_client self) "event"
            (VDict [("type", VStr event);
                    ("description", default (VDict []) description)])
            (wall_clock w (clock_reads w) - start_time self)%Q)])%list.
Proof. done. Qed.

(** *** Rounding *)

Lemma round_half_even_proper (x y : Q) :
  (x == y)%Q → round_half_even x = round_half_even y.
Proof.
  intros Hxy. unfold round_half_even.
  rewrite (Qfloor_comp _ _ Hxy).
  assert (Hc : ((2 * (x - inject_Z (Qfloor y)) ?= 1)
                = (2 * (y - inject_Z (Qfloor y)) ?= 1))%Q)
    by (by rewrite Hxy).
  by rewrite Hc.
Qed.

Lemma py_round_proper (x y : Q) (ndigits : nat) :
  (x == y)%Q → py_round x ndigits = py_round y ndigits.
Proof.
  intros Hxy. unfold py_round.
  rewrite (round_half_even_proper (x * _) (y * inject_Z (Z.pos (Z.to_pos (10 ^ Z.of_nat ndigits)))));
    [done | by rewrite Hxy].
Qed.

Lemma round_half_even_near (y : Q) :
  (Qabs (y - inject_Z (round_half_even y)) <= 1 # 2)%Q.
Proof.
  pose proof (Qfloor_le y) as Hlo. pose proof (Qlt_floor y) as Hhi.
  rewrite inject_Z_plus in Hhi.
  apply Qabs_Qle_condition. unfold round_half_even.
  destruct (2 * (y - inject_Z (Qfloor y)) ?= 1)%Q eqn:Hcmp.
  - apply Qeq_alt in Hcmp.
    destruct (Z.even (Qfloor y)); rewrite ?inject_Z_plus;
      change (inject_Z 1) with 1%Q in *;
      set (lo := inject_Z (Qfloor y)) in *; split; lra.
  - apply Qlt_alt in Hcmp.
    change (inject_Z 1) with 1%Q in *.
    set (lo := inject_Z (Qfloor y)) in *. split; lra.
  - apply Qgt_alt in Hcmp. rewrite inject_Z_plus.
    change (inject_Z 1) with 1%Q in *.
    set (lo := inject_Z (Qfloor y)) in *. split; lra.
Qed.

Lemma py_round_2 (x : Q) :
  (py_round x 2 == inject_Z (round_half_even (x * 100)) / 100)%Q.
Proof.
  unfold py_round. rewrite Qred_correct.
  change (Z.to_pos (10 ^ Z.of_nat 2)) with 100%positive.
  change (inject_Z (Z.pos 100)) with 100%Q.
  apply (Qmake_Qdiv _ 100).
Qed.

Lemma py_round_2_near (x : Q) : (Qabs (x - py_round x 2) <= 1 # 200)%Q.
Proof.
  rewrite py_round_2.
  pose proof (round_half_even_near (x * 100)) as Hnear.
  apply Qabs_Qle_condition in Hnear as [Hlo Hhi]. apply Qabs_Qle_condition.
  set (n := inject_Z (round_half_even (x * 100))) in *.
  unfold Qdiv. change (/ 100)%Q with (1 # 100)%Q.
  split; lra.
Qed.

(** C5. Every [send_message(type, elapsed_time, data)] adds to the broker
    exactly one message, on the channel [game_engine_notifications]: the
    JSON text of one object whose keys are exactly [session_id], [type],
    [data] and [elapsed], holding the client's session identifier, the given
    type, the given data ([{}] when left out) and [elapsed_time] rounded to
    two decimal places: a whole number of hundredths at most half a
    hundredth away from [elapsed_time]. *)
Theorem send_message_envelope (rc : RedisClient.t) (type : string)
    (elapsed_time : Q) (data : option pyval) w :
  ∃ kvs : list (string * pyval),
    broker (RedisClient.send_message rc type elapsed_time data w)
    = (broker w ++ [("game_engine_notifications", json_dumps (VDict kvs))])%list
    ∧ dict_keys kvs ≡ₚ ["session_id"; "type"; "data"; "elapsed"]
    ∧ dict_get kvs "session_id" = Some (VStr (RedisClient.session_id rc))
    ∧ dict_get kvs "type" = Some (VStr type)
    ∧ dict_get kvs "data" = Some (default (VDict []) data)
    ∧ dict_get kvs "elapsed" = Some (VFloat (py_round elapsed_time 2))
    ∧ (∃ n : Z, (py_round elapsed_time 2 == inject_Z n / 100)%Q)
    ∧ (Qabs (elapsed_time - py_round elapsed_time 2) <= 1 # 200)%Q.
Proof.
  eexists. split; [apply send_message_broker|].
  split; [apply perm_skip, perm_swap|].
  do 4 (split; [done|]).
  split; [eexists; apply py_round_2 | apply py_round_2_near].
Qed.

(** C9. For every event name and description, [send_event] publishes one
    envelope of type [event] whose data is exactly
    [{type: event, description: description}]; leaving the description out
    is passing [{}]; and [set_winner(team)] is
    [send_event("winner", {team_id: team.id})]. *)
Theorem send_event_envelope self (event : string) (description : option pyval)
    (team : GameEngineTeam) w :
  published w (send_event self event description w)
  = [("game_engine_notifications",
      json_dumps
        (VDict [("session_id", VStr (RedisClient.session_id (redis_client self)));
                ("data", VDict [("type", VStr event);
                                ("description", default (VDict []) description)]);
                ("type", VStr "event");
                ("elapsed",
                 VFloat (py_round (wall_clock w (clock_reads w) - start_time self) 2))]))]
  ∧ send_event self event None w = send_event self event (Some (VDict [])) w
  ∧ set_winner self team w
    = send_event self "winner" (Some (VDict [("team_id", VStr (team_id team))])) w.
Proof.
  split; [|done].
  apply published_app. by rewrite send_event_broker.
Qed.

(** C3. [start()] records the clock reading as the start timestamp and then
    emits the [started] event; the elapsed time of every envelope
    ([send_event], [send_frame], [send_stats]) is the clock reading taken at
    that call minus the start timestamp, rounded on the wire; with a clock
    that reads [t0] at [start()] and at its event and [t0 + 2.5] at a later
    [set_winner], the two envelopes carry 0 and 2.5.  Before [start()] the
    start timestamp is the 0 of [__init__], so the elapsed time is the bare
    clock reading, the time of no session: the degenerate case. *)
Theorem session_clock self w (event : string) (description : option pyval)
    (frame : pyval) (stats : GameEngineStats.t) (sid : string)
    (ts : list GameEngineTeam) (t0 : Q) :
  let now := wall_clock w (clock_reads w) in
  let since (start_ts : Q) := [Some (VFloat (py_round (now - start_ts) 2))] in
  start_time (start self w).1 = now
  ∧ (start self w).2 = send_event (start self w).1 "started" None (time_time w).2
  ∧ envelope_field "data" <$> published w (start self w).2
    = [Some (VDict [("type", VStr "started"); ("description", VDict [])])]
  ∧ envelope_field "elapsed" <$> published w (start self w).2
    = [Some (VFloat (py_round (wall_clock w (S (clock_reads w)) - now) 2))]
  ∧ GameEngineClient.elapsed self w = ((now - start_time self)%Q, (time_time w).2)
  ∧ envelope_field "elapsed" <$> published w (send_event self event description w)
    = since (start_time self)
  ∧ envelope_field "elapsed" <$> published w (send_frame self frame w)
    = since (start_time self)
  ∧ envelope_field "elapsed" <$> published w (send_stats self stats w).2
    = match (get_table stats).1 with
      | Return _ => since (start_time self)
      | Raise _ => []
      end
  ∧ envelope_field "elapsed"
      <$> broker (let '(c, w1) := start Demo.client (Demo.world t0) in
                  set_winner c Demo.team1 w1)
    = [Some (VFloat 0); Some (VFloat (5 # 2))]
  ∧ start_time (GameEngineClient.init sid ts) = 0%Q
  ∧ envelope_field "elapsed"
      <$> published w (send_event (GameEngineClient.init sid ts) event description w)
    = since 0%Q.
Proof.
  intros now since.
  split; [done|]. split; [done|].
  split; [by new_messages|]. split; [by new_messages|].
  split; [done|].
  split; [by new_messages|]. split; [by new_messages|].
  split.
  { unfold send_stats, GameEngineClient.elapsed. cbn [time_time].
    destruct (get_table stats) as [[rows|e] s']; cbn [fst snd].
    - by new_messages.
    - unfold published. cbn [broker]. by rewrite drop_all. }
  split.
  { cbn. rewrite (py_round_proper (t0 - t0) 0) by ring.
    by rewrite (py_round_proper (t0 + (5 # 2) - t0) (5 # 2)) by ring. }
  split; [done|]. by new_messages.
Qed.

End ClientFacts.

(** ** The bounded call *)

Section InvokerClaims.

Lemma decide_outcome_cases (d : return_dict) :
  (finished d = false ∧ decide_outcome d = Raise TimeoutError)
  ∨ (finished d = true
     ∧ ∃ e, exception d = Some e ∧ exc_truth e = true
            ∧ decide_outcome d = Raise (exc_value e))
  ∨ (finished d = true
     ∧ ∃ e, exception d = Some e ∧ exc_truth e = false
            ∧ decide_outcome d = Return (result d))
  ∨ (finished d = true ∧ exception d = None
     ∧ decide_outcome d = Return (result d)).
Proof.
  unfold decide_outcome.
  destruct (finished d); [right|by left].
  destruct (exception d) as [e|]; [|by right; right].
  simpl. destruct (exc_truth e) eqn:Htruth; [left|right; left]; eauto.
Qed.

(** C1, where the code departs from it.  A worker raises an exception whose
    truth value is false and runs to its end: the mailbox has [finished]
    set and that exception recorded, and [timeout_run] does not raise it
    but returns [None], the result the mailbox started with. *)
Theorem timeout_run_drops_false_exception :
  finished (mailbox (Raises Edge.quiet) 2) = true
  ∧ exception (mailbox (Raises Edge.quiet) 2) = Some Edge.quiet
  ∧ timeout_run (Raises Edge.quiet) 2 = Return VNone
  ∧ timeout_run (Raises Edge.quiet) 2 ≠ Raise (exc_value Edge.quiet).
Proof. by repeat split. Qed.

(** A worker that itself raises [TimeoutError] and runs to its end is
    answered like a worker that never finished. *)
Lemma worker_TimeoutError_reraised :
  timeout_run (Raises (plain TimeoutError)) 2 = timeout_run Escapes 0.
Proof. done. Qed.

End InvokerClaims.

(** ** Further properties of the statistics table *)

Section StatsMore.

Implicit Types (s : GameEngineStats.t) (player p q : GameEnginePlayer)
  (team : GameEngineTeam) (param : string) (names : list string).

Lemma get_value_stored s player param v :
  param ∈ params s → stored s player param = Some v →
  get_value player param s = (Return (Some v), s).
Proof.
  intros Hin Hv. rewrite get_value_declared by done. unfold stored in Hv.
  destruct (players s !! player_id player) as [row|]; simpl in Hv; [|done].
  by rewrite Hv.
Qed.

Lemma add_value_invalid s player param value :
  param ∉ params s ∨ stored s player param = None →
  (add_value player param value s).2 = s.
Proof.
  intros Hbad.
  destruct (add_value_cases s player param value) as [[e ->]|(x & Hx & ->)]; [done|].
  destruct Hbad as [Hnot|Hnone]; [|congruence].
  destruct (set_value_cases s player param (x + value))
    as [[_ ->]|[(Hin & _)|(Hin & _)]]; done.
Qed.

(** X1. In every table the class can be in, [get_value] for a player of one
    of the teams and a declared parameter returns a number: it neither
    raises nor returns [None], and it leaves the table as it is. *)
Theorem get_value_of_team_player s team player param :
  reachable s → team ∈ teams s → player ∈ team_players team → param ∈ params s →
  ∃ v, get_value player param s = (Return (Some v), s).
Proof.
  intros Hreach Ht Hp Hin.
  destruct (reachable_complete s Hreach team player param Ht Hp Hin) as [v Hv].
  exists v. by apply get_value_stored.
Qed.

Lemma get_value_of_team_player_witness :
  reachable Demo.scored ∧ Demo.team2 ∈ teams Demo.scored
  ∧ Demo.p3 ∈ team_players Demo.team2 ∧ "a" ∈ params Demo.scored
  ∧ ∃ v, get_value Demo.p3 "a" Demo.scored = (Return (Some v), Demo.scored).
Proof.
  assert (Hreach : reachable Demo.scored) by (repeat constructor).
  assert (Ht : Demo.team2 ∈ teams Demo.scored) by (vm_compute; right; left).
  assert (Hp : Demo.p3 ∈ team_players Demo.team2) by (vm_compute; left).
  assert (Hin : "a" ∈ params Demo.scored) by (vm_compute; left).
  do 4 (split; [assumption|]).
  exact (get_value_of_team_player Demo.scored Demo.team2 Demo.p3 "a" Hreach Ht Hp Hin).
Defined.

(** X2. Values are keyed by the player's id: when the parameter is declared
    and the id of [p] has a row, [set_value(p, param, value)] returns and a
    following [get_value(q, param)] returns [value] for every player object
    [q] with the id of [p]. *)
Theorem set_value_then_get_value s p q param value :
  param ∈ params s → is_Some (players s !! player_id p) →
  player_id q = player_id p →
  (set_value p param value s).1 = Return ()
  ∧ get_value q param (set_value p param value s).2
    = (Return (Some value), (set_value p param value s).2).
Proof.
  intros Hin [row Hrow] Hq.
  rewrite (set_value_declared s p param value row Hin Hrow).
  split; [done|]. apply get_value_stored; [done|].
  unfold stored. simpl. rewrite Hq, lookup_insert_eq. simpl.
  by rewrite lookup_insert_eq.
Qed.

Lemma set_value_then_get_value_witness :
  "a" ∈ params Demo.scored ∧ is_Some (players Demo.scored !! player_id Demo.p2)
  ∧ player_id Demo.p2 = player_id Demo.p2
  ∧ (set_value Demo.p2 "a" 9 Demo.scored).1 = Return ()
  ∧ get_value Demo.p2 "a" (set_value Demo.p2 "a" 9 Demo.scored).2
    = (Return (Some 9), (set_value Demo.p2 "a" 9 Demo.scored).2).
Proof.
  assert (Hin : "a" ∈ params Demo.scored) by (vm_compute; left).
  assert (Hrow : is_Some (players Demo.scored !! player_id Demo.p2))
    by (vm_compute; eauto).
  do 2 (split; [assumption|]). split; [reflexivity|].
  exact (set_value_then_get_value Demo.scored Demo.p2 Demo.p2 "a" 9 Hin Hrow eq_refl).
Defined.

(** X3. [set_value] and [add_value] on one player and parameter leave every
    other cell of the table as it was: the cells of players with another id,
    and the other parameters of the same player. *)
Theorem other_cells_untouched s p q param param' value :
  player_id q ≠ player_id p ∨ param' ≠ param →
  stored (set_value p param value s).2 q param' = stored s q param'
  ∧ stored (add_value p param value s).2 q param' = stored s q param'.
Proof.
  intros Hother.
  assert (Hset : ∀ v, stored (set_value p param v s).2 q param' = stored s q param').
  { intros v.
    destruct (set_value_cases s p param v)
      as [[_ ->]|[(_ & _ & ->)|(_ & row & Hrow & ->)]]; [done|done|].
    unfold stored. simpl.
    destruct (decide (player_id p = player_id q)) as [Heq|Hne].
    - rewrite Heq, lookup_insert_eq. simpl. rewrite <- Heq, Hrow. simpl.
      destruct Hother as [Hid|Hpar]; [congruence|]. by rewrite lookup_insert_ne.
    - by rewrite lookup_insert_ne. }
  split; [apply Hset|].
  destruct (add_value_cases s p param value) as [[e ->]|(x & _ & ->)]; [done|].
  apply Hset.
Qed.

Lemma other_cells_untouched_witness :
  (player_id Demo.p2 ≠ player_id Demo.p1 ∨ "a" ≠ "a")
  ∧ stored (set_value Demo.p1 "a" 7 Demo.scored).2 Demo.p2 "a"
    = stored Demo.scored Demo.p2 "a"
  ∧ stored (add_value Demo.p1 "a" 7 Demo.scored).2 Demo.p2 "a"
    = stored Demo.scored Demo.p2 "a".
Proof.
  assert (Hother : player_id Demo.p2 ≠ player_id Demo.p1 ∨ "a" ≠ "a")
    by (left; vm_compute; discriminate).
  split; [exact Hother|].
  exact (other_cells_untouched Demo.scored Demo.p1 Demo.p2 "a" "a" 7 Hother).
Defined.

(** X4. When the parameter is declared and the player's cell holds [x],
    [add_value(player, param, value)] returns and the cell then holds
    [x + value]. *)
Theorem add_value_adds s player param value x :
  param ∈ params s → stored s player param = Some x →
  (add_value player param value s).1 = Return ()
  ∧ stored (add_value player param value s).2 player param = Some (x + value).
Proof.
  intros Hin Hx. unfold stored in Hx.
  destruct (players s !! player_id player) as [row|] eqn:Hrow; simpl in Hx; [|done].
  rewrite (add_value_declared s player param value row x Hin Hrow Hx).
  split; [done|]. unfold stored. simpl.
  rewrite lookup_insert_eq. simpl. by rewrite lookup_insert_eq.
Qed.

Lemma add_value_adds_witness :
  "a" ∈ params Demo.scored ∧ stored Demo.scored Demo.p3 "a" = Some 5
  ∧ (add_value Demo.p3 "a" (-2) Demo.scored).1 = Return ()
  ∧ stored (add_value Demo.p3 "a" (-2) Demo.scored).2 Demo.p3 "a" = Some (5 + -2).
Proof.
  assert (Hin : "a" ∈ params Demo.scored) by (vm_compute; left).
  assert (Hx : stored Demo.scored Demo.p3 "a" = Some 5) by (vm_compute; reflexivity).
  do 2 (split; [assumption|]).
  exact (add_value_adds Demo.scored Demo.p3 "a" (-2) 5 Hin Hx).
Defined.

(** X5. For whole numbers, the [int] values of the table: two [add_value]
    calls on the same player and parameter leave the table that one call
    with the sum of the two deltas leaves, on every table, also where the
    calls raise. *)
Theorem add_value_twice s player param a b :
  (add_value player param b (add_value player param a s).2).2
  = (add_value player param (a + b) s).2.
Proof.
  assert (Hbad : param ∉ params s ∨ stored s player param = None →
                 (add_value player param b (add_value player param a s).2).2
                 = (add_value player param (a + b) s).2).
  { intros Hbad.
    rewrite (add_value_invalid s player param a Hbad).
    by rewrite (add_value_invalid s player param b Hbad),
               (add_value_invalid s player param (a + b) Hbad). }
  destruct (decide (param ∈ params s)) as [Hin|Hnot]; [|by auto].
  destruct (stored s player param) as [x|] eqn:Hx; [|by auto].
  clear Hbad. unfold stored in Hx.
  destruct (players s !! player_id player) as [row|] eqn:Hrow; simpl in Hx; [|done].
  rewrite (add_value_declared s player param a row x Hin Hrow Hx).
  rewrite (add_value_declared s player param (a + b) row x Hin Hrow Hx).
  rewrite (add_value_declared _ player param b (<[param := x + a]> row) (x + a));
    [|done|simpl; by rewrite lookup_insert_eq|by rewrite lookup_insert_eq].
  simpl. by rewrite !insert_insert_eq, Z.add_assoc.
Qed.

(** X6. The last [set_value] wins: writing a cell twice leaves the table
    that the second write alone leaves, on every table. *)
Theorem set_value_twice s player param v1 v2 :
  (set_value player param v2 (set_value player param v1 s).2).2
  = (set_value player param v2 s).2.
Proof.
  destruct (set_value_cases s player param v1)
    as [[_ ->]|[(_ & _ & ->)|(Hin & row & Hrow & ->)]]; [done|done|].
  rewrite (set_value_declared s player param v2 row Hin Hrow).
  rewrite (set_value_declared _ player param v2 (<[param := v1]> row));
    [|done|simpl; by rewrite lookup_insert_eq].
  simpl. by rewrite !insert_insert_eq.
Qed.

Lemma set_value_keeps_declared (P : GameEngineStats.t → Prop) s player param value :
  (∀ row, param ∈ params s → players s !! player_id player = Some row →
          P (store player param value row s).2) →
  P s → P (set_value player param value s).2.
Proof.
  intros Hstore HP.
  destruct (set_value_cases s player param value)
    as [[_ ->]|[(_ & _ & ->)|(Hin & row & Hrow & ->)]]; auto.
Qed.

Lemma run_update_keeps (P : GameEngineStats.t → Prop) s (u : update) :
  (∀ player param v row, param ∈ params s →
                         players s !! player_id player = Some row →
                         P (store player param v row s).2) →
  P s → P (run_update u s).2.
Proof.
  intros Hstore HP. destruct u as [player param value|player param value]; simpl.
  - apply set_value_keeps_declared; auto.
  - destruct (add_value_cases s player param value) as [[e ->]|(x & _ & ->)]; [done|].
    apply set_value_keeps_declared; auto.
Qed.

Lemma run_updates_keeps (P : GameEngineStats.t → Prop) (us : list update) :
  (∀ s player param v row, P s → param ∈ params s →
                           players s !! player_id player = Some row →
                           P (store player param v row s).2) →
  ∀ s, P s → P (run_updates us s).
Proof.
  intros Hstore. unfold run_updates.
  induction us as [|u us IH]; intros s HP; cbn [foldl]; [done|].
  apply IH, run_update_keeps; auto.
Qed.

(** X7. [set_value] and [add_value] never change the teams or the declared
    parameters, and [set_params] never changes the teams. *)
Theorem teams_and_params_fixed s names (us : list update) :
  teams (run_updates us s) = teams s
  ∧ params (run_updates us s) = params s
  ∧ teams (set_params names s) = teams s.
Proof.
  split; [|split; [|done]].
  - apply (run_updates_keeps (λ s', teams s' = teams s)); done.
  - apply (run_updates_keeps (λ s', params s' = params s)); done.
Qed.

Lemma store_well_shaped s player param value row :
  well_shaped s → param ∈ params s → players s !! player_id player = Some row →
  well_shaped (store player param value row s).2.
Proof.
  intros [Hrows Hkeys] Hin Hrow. split; simpl.
  - intros pid. rewrite <- Hrows.
    destruct (decide (player_id player = pid)) as [<-|Hne].
    + rewrite lookup_insert_eq, Hrow. split; eauto.
    + by rewrite lookup_insert_ne.
  - intros pid row' a.
    destruct (decide (player_id player = pid)) as [<-|Hne].
    + rewrite lookup_insert_eq. intros [= <-].
      destruct (decide (param = a)) as [<-|Hpa].
      * rewrite lookup_insert_eq. split; eauto.
      * rewrite lookup_insert_ne by done. by apply Hkeys with (player_id player).
    + rewrite lookup_insert_ne by done. apply Hkeys.
Qed.

Lemma set_params_well_shaped names s :
  (∀ pid, is_Some (players s !! pid) → pid ∈ player_ids (teams s)) →
  well_shaped (set_params names s).
Proof.
  intros Hs. split; simpl.
  - intros pid. rewrite seed_players_lookup.
    case_bool_decide; [split; eauto|]. split; [apply Hs|done].
  - intros pid row a. rewrite seed_players_lookup.
    case_bool_decide as Hpid.
    + intros [= <-]. rewrite zero_row_lookup.
      case_bool_decide; (split; [|by eauto]); [done | by intros [? ?]].
    + intros Hrow. destruct Hpid. apply Hs. eauto.
Qed.

(** X8. In every table the class can be in, there is a row for exactly the
    ids of the players of the teams, and every row has exactly the declared
    parameters as its keys: no player is missing, no parameter of an
    earlier declaration survives. *)
Theorem reachable_well_shaped s : reachable s → well_shaped s.
Proof.
  induction 1 as [ts names|s names _ IH|s player param value _ IH|s player param value _ IH].
  - apply set_params_well_shaped. intros pid. simpl.
    rewrite lookup_empty. by intros [? ?].
  - apply set_params_well_shaped. intros pid. apply IH.
  - apply (run_update_keeps well_shaped s (SetValue player param value));
      eauto using store_well_shaped.
  - apply (run_update_keeps well_shaped s (AddValue player param value));
      eauto using store_well_shaped.
Qed.

Lemma reachable_well_shaped_witness :
  reachable Demo.scored ∧ well_shaped Demo.scored.
Proof.
  assert (Hreach : reachable Demo.scored) by (repeat constructor).
  split; [exact Hreach|].
  exact (reachable_well_shaped Demo.scored Hreach).
Defined.

(** X9. Declaring parameters forgets everything: on a table the class can
    be in, [set_params(names)] after any calls of [set_value] and
    [add_value] leaves the table that [set_params(names)] leaves without
    them; and on every table a second [set_params] leaves what it alone
    would leave. *)
Theorem set_params_forgets s names names' (us : list update) :
  reachable s →
  set_params names (run_updates us s) = set_params names s
  ∧ set_params names (set_params names' s) = set_params names s.
Proof.
  intros Hreach.
  assert (Heq : ∀ s', teams s' = teams s →
                      (∀ pid, pid ∉ player_ids (teams s) →
                              players s' !! pid = players s !! pid) →
                      set_params names s' = set_params names s).
  { intros s' Hteams Hrest. unfold set_params. rewrite Hteams. f_equal.
    apply map_eq. intros pid. rewrite !seed_players_lookup.
    case_bool_decide; [done | by apply Hrest]. }
  split; apply Heq.
  - apply (run_updates_keeps (λ s', teams s' = teams s)); done.
  - pose proof (reachable_seeded s Hreach) as Hseeded.
    apply (run_updates_keeps
             (λ s', teams s' = teams s
                    ∧ ∀ pid, pid ∉ player_ids (teams s) →
                             players s' !! pid = players s !! pid)); [|done].
    intros s' player param v row [Hteams Hrest] _ Hrow. split; [done|].
    intros pid Hpid. simpl.
    destruct (decide (player_id player = pid)) as [<-|Hne].
    + exfalso. apply Hpid, Hseeded. rewrite <- (Hrest _ Hpid). eauto.
    + rewrite lookup_insert_ne by done. by apply Hrest.
  - done.
  - intros pid Hpid. simpl. rewrite seed_players_lookup.
    by rewrite bool_decide_eq_false_2.
Qed.

Lemma set_params_forgets_witness :
  reachable Demo.fresh
  ∧ set_params ["b"] (run_updates [SetValue Demo.p1 "a" 4; AddValue Demo.p3 "a" 1]
                                  Demo.fresh)
    = set_params ["b"] Demo.fresh
  ∧ set_params ["b"] (set_params ["c"] Demo.fresh) = set_params ["b"] Demo.fresh.
Proof.
  assert (Hreach : reachable Demo.fresh) by constructor.
  split; [exact Hreach|].
  exact (set_params_forgets Demo.fresh ["b"] ["c"]
           [SetValue Demo.p1 "a" 4; AddValue Demo.p3 "a" 1] Hreach).
Defined.

Lemma team_block_length s team :
  length (Rendered.team_block s team)
  = ((if bool_decide (1 < length (team_players team)) then 1 else 0)
     + length (team_players team))%nat.
Proof.
  unfold Rendered.team_block. rewrite length_app, length_fmap.
  by case_bool_decide.
Qed.

Lemma rendered_table_length s (ts : list GameEngineTeam) :
  length (concat (Rendered.team_block s <$> ts))
  = (length (player_ids ts)
     + length (filter (λ team, 1 < length (team_players team))%nat ts))%nat.
Proof.
  induction ts as [|team ts IH]; [done|].
  rewrite fmap_cons, player_ids_cons, filter_cons. cbn [concat].
  rewrite !length_app, length_fmap, IH, team_block_length.
  case_decide; case_bool_decide; simpl; lia.
Qed.

(** X10. In every table the class can be in, [get_table] returns, without
    raising, one header row, one row per player of the teams and one
    subheader row per team of more than one player, and every row has one
    column more than there are declared parameters. *)
Theorem get_table_shape s :
  reachable s →
  ∃ rows, get_table s = (Return rows, s)
    ∧ length rows
      = S (length (player_ids (teams s))
           + length (filter (λ team, 1 < length (team_players team))%nat (teams s)))
    ∧ Forall (λ r, length <$> row_cols r = Some (S (length (params s)))) rows.
Proof.
  intros Hreach. exists (Rendered.table " " s).
  split; [by apply get_table_complete, reachable_complete|].
  split; [unfold Rendered.table; simpl; by rewrite rendered_table_length|].
  assert (Hrow : ∀ kind (head : pyval) (cells : list pyval),
             length cells = length (params s) →
             length <$> row_cols (table_row kind (head :: cells))
             = Some (S (length (params s)))).
  { intros kind head cells Hlen. unfold table_row, row_cols.
    cbn [dict_get]. rewrite decide_False, decide_True by done.
    cbn [fmap option_fmap option_map length]. by rewrite Hlen. }
  unfold Rendered.table. apply Forall_cons.
  - unfold Rendered.header. apply Hrow, length_fmap.
  - apply Forall_concat, Forall_fmap, Forall_forall. intros team _.
    unfold Rendered.team_block. apply Forall_app. split.
    + case_bool_decide; [|done]. apply Forall_singleton.
      unfold Rendered.subheader. apply Hrow, length_fmap.
    + apply Forall_fmap, Forall_forall. intros player _.
      unfold compose, Rendered.player_line. apply Hrow, length_fmap.
Qed.

Lemma get_table_shape_witness :
  reachable Demo.scored
  ∧ ∃ rows, get_table Demo.scored = (Return rows, Demo.scored)
    ∧ length rows
      = S (length (player_ids (teams Demo.scored))
           + length (filter (λ team, 1 < length (team_players team))%nat
                            (teams Demo.scored)))
    ∧ Forall (λ r, length <$> row_cols r = Some (S (length (params Demo.scored)))) rows.
Proof.
  assert (Hreach : reachable Demo.scored) by (repeat constructor).
  split; [exact Hreach|].
  exact (get_table_shape Demo.scored Hreach).
Defined.

End StatsMore.

(** ** Further properties of the publisher *)

Section ClientMore.

Import GameEngineClient.

Implicit Types (self : GameEngineClient.t) (w : World).

Lemma send_events_effect self (events : list (string * option pyval)) :
  ∀ w,
    broker (send_events self events w)
    = (broker w
       ++ imap (λ i ev, event_envelope self (wall_clock w (clock_reads w + i)) ev)
               events)%list
    ∧ clock_reads (send_events self events w) = (clock_reads w + length events)%nat
    ∧ wall_clock (send_events self events w) = wall_clock w.
Proof.
  unfold send_events.
  induction events as [|ev events IH]; intros w; cbn [foldl].
  - rewrite app_nil_r. simpl. by rewrite Nat.add_0_r.
  - destruct (IH (send_event self ev.1 ev.2 w)) as (Hbroker & Hreads & Hclock).
    rewrite Hbroker, Hreads, Hclock. split; [|split; [simpl; lia|done]].
    rewrite send_event_broker, <- app_assoc, imap_cons.
    cbn [app]. rewrite Nat.add_0_r.
    do 2 f_equal. apply imap_ext. intros i ev' _. simpl.
    by rewrite Nat.add_succ_r.
Qed.

(** X11. Events come out in the order of the calls: after any sequence of
    [send_event] calls the broker holds what it held before, unchanged,
    followed by one envelope per call in call order, the [i]-th carrying
    the elapsed time of the [i]-th clock reading; nothing is reordered,
    merged or dropped. *)
Theorem send_events_in_order self (events : list (string * option pyval)) w :
  broker (send_events self events w)
  = (broker w
     ++ imap (λ i ev, event_envelope self (wall_clock w (clock_reads w + i)) ev)
             events)%list.
Proof. apply send_events_effect. Qed.

(** X12. One session, one identifier, one channel: every message that a
    client built for session [sid] publishes, by [start] and afterwards by
    [send_event], [send_frame] and [send_stats], goes to
    [game_engine_notifications] and carries [sid] as its [session_id]. *)
Theorem session_id_on_every_envelope (sid : string) (ts : list GameEngineTeam)
    (event : string) (description : option pyval) (frame : pyval)
    (stats : GameEngineStats.t) (w w' : World) :
  let started := (start (GameEngineClient.init sid ts) w).1 in
  Forall (λ msg, msg.1 = "game_engine_notifications"
                 ∧ envelope_field "session_id" msg = Some (VStr sid))
         (published w (start (GameEngineClient.init sid ts) w).2
          ++ published w' (send_event started event description w')
          ++ published w' (send_frame started frame w')
          ++ published w' (send_stats started stats w').2)%list.
Proof.
  intros started.
  repeat (apply Forall_app; split).
  - new_messages. by apply Forall_singleton.
  - new_messages. by apply Forall_singleton.
  - new_messages. by apply Forall_singleton.
  - unfold send_stats, GameEngineClient.elapsed. cbn [time_time].
    destruct (get_table stats) as [[rows|e] s']; cbn [fst snd].
    + new_messages. by apply Forall_singleton.
    + unfold published. cbn [broker]. rewrite drop_all. apply Forall_nil_2.
Qed.

(** X13. For a table the class can be in, [send_stats] returns and
    publishes exactly one envelope of type [stats] whose data is the
    rendered table of [get_table], with the elapsed time of the one clock
    reading it takes. *)
Theorem send_stats_publishes_table self (stats : GameEngineStats.t) w :
  reachable stats →
  (send_stats self stats w).1 = Return ()
  ∧ published w (send_stats self stats w).2
    = [("game_engine_notifications",
        RedisClient.pack_message (redis_client self) "stats"
          (VList (Rendered.table " " stats))
          (wall_clock w (clock_reads w) - start_time self)%Q)].
Proof.
  intros Hreach. unfold send_stats, GameEngineClient.elapsed. cbn [time_time].
  rewrite (get_table_complete stats (reachable_complete stats Hreach)).
  split; [done|]. by new_messages.
Qed.

Lemma send_stats_publishes_table_witness :
  reachable Demo.scored
  ∧ (send_stats Demo.client Demo.scored (Demo.world 7)).1 = Return ()
  ∧ published (Demo.world 7) (send_stats Demo.client Demo.scored (Demo.world 7)).2
    = [("game_engine_notifications",
        RedisClient.pack_message (redis_client Demo.client) "stats"
          (VList (Rendered.table " " Demo.scored))
          (wall_clock (Demo.world 7) (clock_reads (Demo.world 7))
           - start_time Demo.client)%Q)].
Proof.
  assert (Hreach : reachable Demo.scored) by (repeat constructor).
  split; [exact Hreach|].
  exact (send_stats_publishes_table Demo.client Demo.scored (Demo.world 7) Hreach).
Defined.

(** X14. When [get_table] raises, [send_stats] raises the same exception
    and publishes nothing, although the clock was already read. *)
Theorem send_stats_propagates self (stats : GameEngineStats.t) w (e : pyexc) :
  (get_table stats).1 = Raise e →
  (send_stats self stats w).1 = Raise e
  ∧ broker (send_stats self stats w).2 = broker w
  ∧ clock_reads (send_stats self stats w).2 = S (clock_reads w).
Proof.
  intros Hraise. unfold send_stats, GameEngineClient.elapsed. cbn [time_time].
  destruct (get_table stats) as [[rows|e'] s']; simpl in Hraise; [done|].
  by injection Hraise as ->.
Qed.

Lemma send_stats_propagates_witness :
  (get_table Edge.torn).1 = Raise (KeyError "p3")
  ∧ (send_stats Demo.client Edge.torn (Demo.world 7)).1 = Raise (KeyError "p3")
  ∧ broker (send_stats Demo.client Edge.torn (Demo.world 7)).2 = broker (Demo.world 7)
  ∧ clock_reads (send_stats Demo.client Edge.torn (Demo.world 7)).2
    = S (clock_reads (Demo.world 7)).
Proof.
  assert (Hraise : (get_table Edge.torn).1 = Raise (KeyError "p3"))
    by (vm_compute; reflexivity).
  split; [exact Hraise|].
  exact (send_stats_propagates Demo.client Edge.torn (Demo.world 7)
           (KeyError "p3") Hraise).
Defined.

(** X15. [send_frame] publishes one envelope of type [frame] whose data is
    the frame exactly as given, and [end] publishes the event [ended] with
    the empty description. *)
Theorem send_frame_and_end self (frame : pyval) w :
  published w (send_frame self frame w)
  = [("game_engine_notifications",
      RedisClient.pack_message (redis_client self) "frame" frame
        (wall_clock w (clock_reads w) - start_time self)%Q)]
  ∧ published w (end_ self w)
    = [event_envelope self (wall_clock w (clock_reads w)) ("ended", None)].
Proof.
  split; [by new_messages|].
  unfold end_, event_envelope. by new_messages.
Qed.

Lemma round_half_even_nonneg (y : Q) : (0 <= y)%Q → (0 <= round_half_even y)%Z.
Proof.
  intros Hy. pose proof (Qfloor_resp_le 0 y Hy) as Hlo.
  change (Qfloor 0) with 0 in Hlo. unfold round_half_even.
  destruct (2 * (y - inject_Z (Qfloor y)) ?= 1)%Q; [|lia..].
  destruct (Z.even (Qfloor y)); lia.
Qed.

Lemma py_round_2_nonneg (x : Q) : (0 <= x)%Q → (0 <= py_round x 2)%Q.
Proof.
  intros Hx. rewrite py_round_2.
  assert (Hn : (0 <= round_half_even (x * 100))%Z)
    by (apply round_half_even_nonneg; lra).
  apply Qle_shift_div_l; [done|]. rewrite Qmult_0_l.
  change 0%Q with (inject_Z 0). by rewrite <- Zle_Qle.
Qed.

(** X16. If the clock reads no less than the start timestamp, the elapsed
    time on the envelope of an event is not negative. *)
Theorem elapsed_not_negative self (event : string) (description : option pyval) w :
  (start_time self <= wall_clock w (clock_reads w))%Q →
  ∃ q, envelope_field "elapsed" <$> published w (send_event self event description w)
       = [Some (VFloat q)]
       ∧ (0 <= q)%Q.
Proof.
  intros Hmono. eexists. split; [by new_messages|].
  apply py_round_2_nonneg. lra.
Qed.

Lemma elapsed_not_negative_witness :
  (start_time Demo.client <= wall_clock (Demo.world 7) (clock_reads (Demo.world 7)))%Q
  ∧ ∃ q, envelope_field "elapsed"
           <$> published (Demo.world 7) (send_event Demo.client "move" None (Demo.world 7))
         = [Some (VFloat q)]
         ∧ (0 <= q)%Q.
Proof.
  assert (Hmono : (start_time Demo.client
                   <= wall_clock (Demo.world 7) (clock_reads (Demo.world 7)))%Q)
    by (vm_compute; discriminate).
  split; [exact Hmono|].
  exact (elapsed_not_negative Demo.client "move" None (Demo.world 7) Hmono).
Defined.

(** X17. The publishing methods never touch what is already on the broker:
    after [send_event], [send_frame], [send_stats] and [start] the earlier
    messages are still there, in place, as a prefix; the first three read
    the clock once and [start] reads it twice. *)
Theorem earlier_messages_kept self (event : string) (description : option pyval)
    (frame : pyval) (stats : GameEngineStats.t) w :
  (broker w `prefix_of` broker (send_event self event description w)
   ∧ clock_reads (send_event self event description w) = S (clock_reads w))
  ∧ (broker w `prefix_of` broker (send_frame self frame w)
     ∧ clock_reads (send_frame self frame w) = S (clock_reads w))
  ∧ (broker w `prefix_of` broker (send_stats self stats w).2
     ∧ clock_reads (send_stats self stats w).2 = S (clock_reads w))
  ∧ (broker w `prefix_of` broker (start self w).2
     ∧ clock_reads (start self w).2 = S (S (clock_reads w))).
Proof.
  repeat split; try done; try (by eexists).
  - unfold send_stats, GameEngineClient.elapsed. cbn [time_time].
    destruct (get_table stats) as [[rows|e] s']; cbn [snd]; [by eexists|done].
  - unfold send_stats, GameEngineClient.elapsed. cbn [time_time].
    by destruct (get_table stats) as [[rows|e] s'].
Qed.

End ClientMore.

(** ** Further properties of the bounded call *)

Section InvokerMore.


End InvokerMore.

(** ** The name of a player's module *)

Section ScriptWrapperFacts.

Import ScriptWrapper.

Implicit Types (s stem dir chars : string) (c sep : ascii).

Lemma in_chars_app c s1 s2 :
  in_chars c (s1 ++ s2) = in_chars c s1 || in_chars c s2.
Proof.
  induction s1 as [|d s1 IH]; simpl; [done|].
  by rewrite IH, orb_assoc.
Qed.

Lemma py_split_nonempty sep s : py_split sep s ≠ [].
Proof.
  destruct s as [|c s]; simpl; [done|].
  destruct (Ascii.eqb c sep); [done|]. by destruct (py_split sep s).
Qed.

Lemma py_split_app sep s1 s2 :
  py_split sep (s1 ++ String sep s2) = (py_split sep s1 ++ py_split sep s2)%list.
Proof.
  induction s1 as [|c s1 IH]; simpl.
  - by rewrite Ascii.eqb_refl.
  - rewrite IH. destruct (Ascii.eqb c sep); [done|].
    pose proof (py_split_nonempty sep s1) as Hne.
    by destruct (py_split sep s1).
Qed.

Lemma py_split_whole sep s : in_chars sep s = false → py_split sep s = [s].
Proof.
  induction s as [|c s IH]; simpl; [done|].
  intros [Hc Hs]%orb_false_iff. rewrite Ascii.eqb_sym, Hc. by rewrite IH.
Qed.

Lemma py_split_pieces sep s :
  Forall (λ piece, in_chars sep piece = false) (py_split sep s).
Proof.
  induction s as [|c s IH]; simpl; [by apply Forall_singleton|].
  destruct (Ascii.eqb c sep) eqn:Hc; [by apply Forall_cons|].
  destruct (py_split sep s) as [|piece others].
  - apply Forall_singleton. simpl. by rewrite Ascii.eqb_sym, Hc.
  - apply Forall_cons_1 in IH as [Hpiece Hothers]. apply Forall_cons; [|done].
    simpl. by rewrite Ascii.eqb_sym, Hc.
Qed.

Lemma last_app_nonempty (l1 l2 : list string) d :
  l2 ≠ [] → List.last (l1 ++ l2) d = List.last l2 d.
Proof.
  intros Hne. induction l1 as [|x l1 IH]; [done|].
  cbn [app List.last]. rewrite IH.
  destruct (l1 ++ l2)%list eqn:Happ; [|done].
  by apply app_eq_nil in Happ as [_ ?].
Qed.

Lemma last_Forall (P : string → Prop) (l : list string) d :
  Forall P l → P d → P (List.last l d).
Proof.
  intros Hl Hd. induction Hl as [|x l Hx Hl IH]; [done|].
  simpl. by destruct l.
Qed.

Lemma py_rstrip_app chars s t :
  py_rstrip chars t = EmptyString → py_rstrip chars (s ++ t) = py_rstrip chars s.
Proof.
  intros Ht. induction s as [|c s IH]; simpl; [done|]. by rewrite IH.
Qed.

Lemma py_rstrip_ends chars s : ends_in chars (py_rstrip chars s) = false.
Proof.
  unfold ends_in. induction s as [|c s IH]; simpl; [done|].
  destruct (py_rstrip chars s) as [|d kept] eqn:Hkept.
  - destruct (in_chars c chars) eqn:Hc; simpl; [done|by rewrite Hc].
  - done.
Qed.

Lemma py_rstrip_fixed chars s : ends_in chars s = false → py_rstrip chars s = s.
Proof.
  unfold ends_in. induction s as [|c s IH]; simpl; [done|].
  destruct s as [|d s].
  - simpl. by intros ->.
  - intros Hlast. by rewrite IH.
Qed.

Lemma py_rstrip_chars c chars s :
  in_chars c s = false → in_chars c (py_rstrip chars s) = false.
Proof.
  induction s as [|d s IH]; simpl; [done|].
  intros [Hd Hs]%orb_false_iff. specialize (IH Hs).
  destruct (py_rstrip chars s) as [|d' kept].
  - destruct (in_chars d chars); simpl; [done|by rewrite Hd].
  - simpl in *. by rewrite Hd, IH.
Qed.

Lemma module_name_dir dir stem :
  in_chars "/" stem = false →
  module_name {| path := dir ++ "/" ++ stem ++ ".py" |} = py_rstrip ".py" stem
  ∧ module_name {| path := stem ++ ".py" |} = py_rstrip ".py" stem.
Proof.
  intros Hstem. unfold module_name. cbn [path].
  assert (Hfile : py_split "/" (stem ++ ".py") = [stem ++ ".py"]).
  { apply py_split_whole. by rewrite in_chars_app, Hstem. }
  split.
  - change (dir ++ "/" ++ stem ++ ".py") with (dir ++ String "/" (stem ++ ".py")).
    rewrite py_split_app, last_app_nonempty by apply py_split_nonempty.
    rewrite Hfile. cbn [List.last]. by apply py_rstrip_app.
  - rewrite Hfile. cbn [List.last]. by apply py_rstrip_app.
Qed.

(** X19. For a script [dir/stem.py], or [stem.py] without a directory,
    whose stem has no slash and ends in none of the characters [.], [p] and
    [y] (the empty stem included), the module is loaded under the name
    [stem]. *)
Theorem module_name_of_script dir stem :
  in_chars "/" stem = false → ends_in ".py" stem = false →
  module_name {| path := dir ++ "/" ++ stem ++ ".py" |} = stem
  ∧ module_name {| path := stem ++ ".py" |} = stem.
Proof.
  intros Hslash Hend.
  destruct (module_name_dir dir stem Hslash) as [-> ->].
  by rewrite py_rstrip_fixed.
Qed.

Lemma module_name_of_script_witness :
  in_chars "/" "alpha" = false ∧ ends_in ".py" "alpha" = false
  ∧ module_name {| path := "bots/red" ++ "/" ++ "alpha" ++ ".py" |} = "alpha"
  ∧ module_name {| path := "alpha" ++ ".py" |} = "alpha".
Proof.
  split; [reflexivity|]. split; [reflexivity|].
  exact (module_name_of_script "bots/red" "alpha" eq_refl eq_refl).
Defined.

(** X20. The module name never contains a slash and never ends in [.], [p]
    or [y]: [rstrip(".py")] strips these characters, not the suffix. *)
Theorem module_name_stripped (self : ScriptWrapper.t) :
  in_chars "/" (module_name self) = false
  ∧ ends_in ".py" (module_name self) = false.
Proof.
  split; [|apply py_rstrip_ends].
  apply py_rstrip_chars.
  apply (last_Forall (λ piece, in_chars "/" piece = false));
    [apply py_split_pieces | done].
Qed.

(** X21. A script whose stem ends in [.], [p] or [y] is not loaded under its
    stem: the name is the stem cut back to its last other character. *)
Theorem module_name_eats_stem dir stem :
  in_chars "/" stem = false → ends_in ".py" stem = true →
  module_name {| path := dir ++ "/" ++ stem ++ ".py" |} = py_rstrip ".py" stem
  ∧ py_rstrip ".py" stem ≠ stem.
Proof.
  intros Hslash Hend. split; [by apply module_name_dir|].
  intros Heq. pose proof (py_rstrip_ends ".py" stem) as Hcut.
  rewrite Heq in Hcut. congruence.
Qed.

Lemma module_name_eats_stem_witness :
  in_chars "/" "happy" = false ∧ ends_in ".py" "happy" = true
  ∧ module_name {| path := "bots" ++ "/" ++ "happy" ++ ".py" |}
    = py_rstrip ".py" "happy"
  ∧ py_rstrip ".py" "happy" ≠ "happy".
Proof.
  split; [reflexivity|]. split; [reflexivity|].
  exact (module_name_eats_stem "bots" "happy" eq_refl eq_refl).
Defined.

End ScriptWrapperFacts.

(** ** When rendering fails *)

Section RenderingFails.

Implicit Types (s : GameEngineStats.t) (player : GameEnginePlayer)
  (team : GameEngineTeam) (param : string) (names : list string).

Lemma cell_returns s player param v s' :
  cell player param s = (Return v, s') → stored s player param = Some v.
Proof.
  unfold cell, bind, player_row, stored.
  destruct (players s !! player_id player) as [row|]; simpl; [|done].
  destruct (row !! param); [|done]. by intros [= -> _].
Qed.

Lemma cell_state s player param : (cell player param s).2 = s.
Proof.
  unfold cell, bind, player_row.
  destruct (players s !! player_id player) as [row|]; simpl; [|done].
  by destruct (row !! param).
Qed.

Lemma accumulate_state i player param (acc : list Z) s :
  (accumulate i player param acc s).2 = s.
Proof.
  unfold accumulate, bind. pose proof (cell_state s player param) as Hs.
  destruct (cell player param s) as [[v|e] s1]; simpl in Hs; subst; [|done].
  by destruct (acc !! i).
Qed.

Lemma accumulate_returns i player param (acc r : list Z) s s' :
  accumulate i player param acc s = (Return r, s') →
  is_Some (stored s player param).
Proof.
  unfold accumulate, bind.
  destruct (cell player param s) as [[v|e] s1] eqn:Hcell; [|done].
  intros _. exists v. by eapply cell_returns.
Qed.

Lemma for_each_state {A B} (body : A → B → M B) (l : list A) :
  (∀ x acc s, (body x acc s).2 = s) →
  ∀ acc s, (for_each l body acc s).2 = s.
Proof.
  intros Hbody. induction l as [|x l IH]; intros acc s; cbn [for_each]; [done|].
  unfold bind. pose proof (Hbody x acc s) as Hs.
  destruct (body x acc s) as [[acc1|e] s1]; simpl in Hs; subst; [apply IH|done].
Qed.

Lemma for_each_returns {A B} (body : A → B → M B) (l : list A) :
  (∀ x acc s, (body x acc s).2 = s) →
  ∀ acc s r s', for_each l body acc s = (Return r, s') →
                ∀ x, x ∈ l → ∃ acc0 r0, body x acc0 s = (Return r0, s).
Proof.
  intros Hbody. induction l as [|a l IH]; intros acc s r s' Hret x Hx.
  - by apply not_elem_of_nil in Hx.
  - cbn [for_each] in Hret. unfold bind in Hret.
    pose proof (Hbody a acc s) as Hs.
    destruct (body a acc s) as [[acc1|e] s1] eqn:Hbody_a; [|done].
    simpl in Hs. subst s1.
    apply elem_of_cons in Hx as [->|Hx]; [by eauto|].
    by eapply IH.
Qed.

Lemma enumerate_elem param names :
  param ∈ names → ∃ i, (i, param) ∈ enumerate names.
Proof.
  intros [i Hi]%list_elem_of_lookup. exists i.
  apply list_elem_of_lookup. exists i. unfold enumerate.
  by rewrite list_lookup_imap, Hi.
Qed.

Lemma row_loop_returns names player (acc r : list Z) s s' param :
  for_each (enumerate names) (λ '(i, a) row, accumulate i player a row) acc s
  = (Return r, s') →
  param ∈ names → is_Some (stored s player param).
Proof.
  intros Hret [i Hi]%enumerate_elem.
  eapply for_each_returns in Hret as (acc0 & r0 & Hacc); [| |exact Hi].
  - simpl in Hacc. by eapply accumulate_returns.
  - intros [j a] acc1 s1. apply accumulate_state.
Qed.

Lemma line_state names player (rows : list pyval) s :
  ((let* row :=
      for_each (enumerate names)
        (λ '(i, param) row, accumulate i player param row)
        (replicate (length names) 0) in
    ret (rows ++ [table_row "row"
                    (VStr (player_name player) :: (VInt <$> row))])%list)%stats s).2
  = s.
Proof.
  unfold bind.
  pose proof (for_each_state
                (λ '(i, param) row, accumulate i player param row)
                (enumerate names)) as Hs.
  specialize (Hs (λ '(i, a) acc s1, accumulate_state i player a acc s1)
                 (replicate (length names) 0) s).
  by destruct (for_each _ _ _ s) as [[row|e] s1]; simpl in Hs; subst.
Qed.

Lemma team_rows_state names team (rows : list pyval) s :
  (team_rows names team rows s).2 = s.
Proof.
  unfold team_rows. unfold bind at 1.
  assert (Hfirst : ∀ m : M (list pyval), (m s).2 = s →
            (let (o, s1) := m s in
             match o with
             | Return a =>
                 for_each (team_players team)
                   (λ player rows,
                      let* row :=
                        for_each (enumerate names)
                          (λ '(i, param) row, accumulate i player param row)
                          (replicate (length names) 0) in
                      ret (rows ++ [table_row "row"
                                      (VStr (player_name player) :: (VInt <$> row))])%list)%stats
                   a s1
             | Raise e => (Raise e, s1)
             end).2 = s).
  { intros m Hm. destruct (m s) as [[a|e] s1]; simpl in Hm; subst; [|done].
    apply for_each_state. intros player acc s1. apply line_state. }
  apply Hfirst. case_bool_decide; [|done].
  unfold bind.
  pose proof (for_each_state
                (λ '(i, param) sums,
                   for_each (team_players team)
                     (λ player sums, accumulate i player param sums) sums)
                (enumerate names)) as Hs.
  specialize (Hs (λ '(i, a) acc s1,
                    for_each_state (λ player sums, accumulate i player a sums)
                      (team_players team)
                      (λ player sums s2, accumulate_state i player a sums s2)
                      acc s1)
                 (replicate (length names) 0) s).
  by destruct (for_each _ _ _ s) as [[sums|e] s1]; simpl in Hs; subst.
Qed.

(** X22. [get_table] returns exactly on the tables in which every player of
    every team has every declared parameter; on any other table it raises.
    In particular it returns on every table without declared parameters. *)
Theorem get_table_returns_iff_complete s :
  (∃ rows, (get_table s).1 = Return rows) ↔ complete s.
Proof.
  split; [|intros Hc; rewrite (get_table_complete s Hc); by eexists].
  intros [rows Hret] team player param Ht Hp Hin.
  unfold get_table, bind, get_params, get_teams in Hret.
  destruct (for_each (teams s) (team_rows (params s)) _ s)
    as [out s'] eqn:Hloop.
  simpl in Hret. subst out.
  eapply for_each_returns in Hloop as (rows0 & r0 & Hteam);
    [|intros; apply team_rows_state|exact Ht].
  unfold team_rows in Hteam. unfold bind at 1 in Hteam.
  destruct ((if bool_decide (1 < length (team_players team))%nat
             then _ else ret rows0) s) as [[rows1|e] s1] eqn:Hfirst; [|done].
  assert (s1 = s) as ->.
  { revert Hfirst. case_bool_decide; [|by intros [= _ ->]].
    unfold bind. intros Hfirst.
    pose proof (for_each_state
                  (λ '(i, a) sums,
                     for_each (team_players team)
                       (λ player sums, accumulate i player a sums) sums)
                  (enumerate (params s))
                  (λ '(i, a) acc s2,
                     for_each_state (λ player sums, accumulate i player a sums)
                       (team_players team)
                       (λ player sums s3, accumulate_state i player a sums s3)
                       acc s2)
                  (replicate (length (params s)) 0) s) as Hs.
    destruct (for_each _ _ _ s) as [[sums|e] s2]; simpl in Hs; subst; [|done].
    by injection Hfirst as _ ->. }
  eapply for_each_returns in Hteam as (rows2 & r2 & Hline);
    [|intros; apply line_state|exact Hp].
  unfold bind in Hline.
  destruct (for_each (enumerate (params s)) _ _ s) as [[row|e] s2] eqn:Hrow; [|done].
  by eapply row_loop_returns.
Qed.

End RenderingFails.
